(** * ld-decode tools: disc stacker and PAL chroma decoder worker threads

    A shallow embedding of [tools/ld-disc-stacker/stacker.cpp] and
    [tools/ld-chroma-decoder/paldecoder.cpp], followed by the properties
    of the stacking engine, of the PAL geometry normaliser and of the two
    worker loops.

    Conventions of the embedding:
    - [qint32] and [quint16] values are integers of [Z]; the source never
      relies on wrap-around (signed overflow is undefined in C++), so the
      arithmetic is that of [Z] and the 16-bit range of samples appears as
      an explicit hypothesis where it matters;
    - [double] values are binary64 primitive floats, so every rounding of
      the source is the rounding of the model;
    - a [QVector] or a [QByteArray] is a list; reading outside a vector is
      undefined in the source and yields a default value here;
    - [%] on integers is [Z.rem] (truncated, as in C++), [/] on
      non-negative sizes is the division of [nat]. *)

From Stdlib Require Import ZArith Zpower QArith List Lia Bool Permutation Sorted.
From Stdlib Require Qminmax.
From Stdlib Require Import Qround.
From Stdlib Require Import Floats Uint63.
From Stdlib.Strings Require Import Byte.
From Equations Require Import Equations.
Import ListNotations.
Close Scope Q_scope.
Open Scope Z_scope.

(* ===================================================================== *)
(** * Part I: the embedding *)
(* ===================================================================== *)

(** ** [double] arithmetic *)

Module Double.

(** [static_cast<double>(n)] for an integer [0 <= n < 2^63]. *)
Definition of_int (z : Z) : float := PrimFloat.of_uint63 (Uint63.of_Z z).

(** Integer part of a [double] [0 <= d < 2^53]: with
    [frshiftexp d = (f, e)] one has [d = f * 2^(e - 2101)] and
    [normfr_mantissa f = f * 2^53], so the integer part of [d] is the
    mantissa shifted right by [53 - (e - 2101)] bits. *)
Definition trunc_int (d : float) : int :=
  let '(f, e) := PrimFloat.frshiftexp d in
  (PrimFloat.normfr_mantissa f >> (2154 - e))%uint63.

(** [static_cast<quint16>(d)]: truncation toward zero.  The conversion is
    undefined in C++ when the integer part does not fit the target; every
    use below stays within [0, 65535]. *)
Definition to_quint16 (d : float) : Z := Uint63.to_Z (trunc_int d).

(** [static_cast<qint32>(d)], truncation toward zero for either sign. *)
Definition to_qint32 (d : float) : Z :=
  if (d <? 0)%float then - Uint63.to_Z (trunc_int (PrimFloat.abs d))
  else Uint63.to_Z (trunc_int d).

(** A check of [p] on the [2^k] integers from [base] on, by halving;
    [width] is [2^k]. *)
Fixpoint forall_range (k : nat) (base width : int) (p : int -> bool) : bool :=
  match k with
  | O => p base
  | S k' =>
      let h := (width >> 1)%uint63 in
      forall_range k' base h p && forall_range k' (base + h)%uint63 h p
  end.

End Double.

(** ** Containers *)

(** [v[i]] on a [QVector] with an [int] index; [d] outside the vector. *)
Definition at_ {A : Type} (d : A) (v : list A) (i : Z) : A :=
  if i <? 0 then d else nth (Z.to_nat i) v d.

(** [v[i] = x] on a [QVector]; the write is undefined outside the vector
    and leaves the list unchanged here. *)
Fixpoint update {A : Type} (n : nat) (x : A) (l : list A) : list A :=
  match l, n with
  | [], _ => []
  | _ :: t, O => x :: t
  | h :: t, S k => h :: update k x t
  end.

Definition set_at {A : Type} (v : list A) (i : Z) (x : A) : list A :=
  if i <? 0 then v else update (Z.to_nat i) x v.

(** The values [0, 1, ..., n-1] of a [for (qint32 i = 0; i < n; i++)] loop;
    none when [n <= 0]. *)
Definition upto (n : Z) : list Z := map Z.of_nat (seq 0 (Z.to_nat n)).

(** The values [a, a+1, ..., b-1] of a [for (qint32 y = a; y < b; y++)] loop. *)
Definition range (a b : Z) : list Z := map (fun k => a + Z.of_nat k) (seq 0 (Z.to_nat (b - a))).

(** ** Metadata *)

Module DropOuts.

(** Modelled from the spec: the class [DropOuts] is declared in the
    metadata library, not in the two source files.  It is a table of defect
    intervals; one entry holds what the source reads as [startx(i)],
    [endx(i)] and [fieldLine(i)] (an inclusive column range on a 1-based
    line). *)
Record DropOut : Type := mkDropOut { startx : Z; endx : Z; fieldLine : Z }.

Definition t : Type := list DropOut.

(** [DropOuts::append(startx, endx, fieldLine)]. *)
Definition append (d : t) (sx ex line : Z) : t := d ++ [mkDropOut sx ex line].

Definition size (d : t) : Z := Z.of_nat (length d).

End DropOuts.

Module LdDecodeMetaData.

(** Modelled from the spec: [LdDecodeMetaData::VideoParameters] is declared
    in the metadata library; these are the fields the two source files
    read or write. *)
Record VideoParameters : Type := mkVideoParameters {
  isSourcePal : bool;
  colourBurstStart : Z;
  activeVideoStart : Z;
  activeVideoEnd : Z;
  fieldWidth : Z;
  fieldHeight : Z
}.

(** Modelled from the spec: [LdDecodeMetaData::Field] is declared in the
    metadata library; the stacker reads its [dropOuts] only. *)
Record Field : Type := mkField { dropOuts : DropOuts.t }.

Definition set_activeVideoStart (vp : VideoParameters) (v : Z) : VideoParameters :=
  mkVideoParameters (isSourcePal vp) (colourBurstStart vp) v (activeVideoEnd vp)
                    (fieldWidth vp) (fieldHeight vp).

Definition set_activeVideoEnd (vp : VideoParameters) (v : Z) : VideoParameters :=
  mkVideoParameters (isSourcePal vp) (colourBurstStart vp) (activeVideoStart vp) v
                    (fieldWidth vp) (fieldHeight vp).

End LdDecodeMetaData.

(** ** [std::nth_element] *)

(** Ascending insertion sort, the reference ordering of a value set. *)
Fixpoint insert (x : Z) (l : list Z) : list Z :=
  match l with
  | [] => [x]
  | h :: t => if x <=? h then x :: l else h :: insert x t
  end.

Fixpoint sort (l : list Z) : list Z :=
  match l with
  | [] => []
  | h :: t => insert h (sort t)
  end.

(** The [k]-th order statistic (0-based) of a value set. *)
Definition order_stat (k : nat) (l : list Z) : Z := nth k (sort l) 0.

(** [std::nth_element(v.begin(), v.begin() + k, v.end())] is known by its
    contract only (ISO C++ [alg.nth.element]): the range is permuted, the
    element at position [k] is the one a full sort would put there, and no
    element before position [k] exceeds an element from position [k] on. *)
Class NthElement : Type := {
  nth_element : nat -> list Z -> list Z;
  nth_element_perm : forall k l, Permutation l (nth_element k l);
  nth_element_nth : forall k l, (k < length l)%nat ->
    nth k (nth_element k l) 0 = order_stat k l;
  nth_element_split : forall k l i j, (i < k)%nat -> (k <= j < length l)%nat ->
    nth i (nth_element k l) 0 <= nth j (nth_element k l) 0
}.

(** ** The frame pools *)

Module Pool.

(** What a worker does with its pool, in order. *)
Inductive Event : Type :=
| Claimed (frameNumber : Z)
| Submitted (frameNumber : Z) (accepted : bool).

Section Pool.
Variables Input Output : Type.

(** Modelled from the spec: [StackingPool] and [DecoderPool] (the
    supplier and collector of frames) are not part of the two source
    files.  A pool holds the units of work not yet handed out and the
    results collected so far; [faulty n] tells whether the sink refuses
    the result of frame [n] (an output fault such as a failed write). *)
Record t : Type := mk {
  pending : list (Z * Input);
  collected : list (Z * Output);
  faulty : Z -> bool
}.

(** Modelled from the spec: [getInputFrame] hands out the next unit of
    work with its frame number, or returns [false] on exhaustion. *)
Definition getInputFrame (p : t) : option (Z * Input) * t :=
  match pending p with
  | [] => (None, p)
  | f :: rest => (Some f, mk rest (collected p) (faulty p))
  end.

(** Modelled from the spec: [putOutputFrame] / [setOutputFrame] collects
    a result under its frame number and returns [false] on an output
    fault. *)
Definition putOutputFrame (p : t) (frameNumber : Z) (out : Output) : bool * t :=
  if faulty p frameNumber then (false, p)
  else (true, mk (pending p) (collected p ++ [(frameNumber, out)]) (faulty p)).

(** A claimed unit of work is gone from the pool, and collecting a
    result hands none back: the loops of the workers are finite. *)
Lemma getInputFrame_pending (p p' : t) (f : Z * Input) :
  getInputFrame p = (Some f, p') -> pending p = f :: pending p'.
Proof.
  unfold getInputFrame. destruct (pending p); intros H; inversion H. reflexivity.
Qed.

Lemma putOutputFrame_pending (p : t) (n : Z) (out : Output) :
  pending (snd (putOutputFrame p n out)) = pending p.
Proof.
  unfold putOutputFrame. destruct (faulty p n); reflexivity.
Qed.

(** A worker that has left its loop. *)
Record Stopped : Type := mkStopped {
  abort : bool;
  pool : t;
  trace : list Event
}.
End Pool.

Arguments mk {Input Output}.
Arguments pending {Input Output}.
Arguments collected {Input Output}.
Arguments faulty {Input Output}.
Arguments getInputFrame {Input Output}.
Arguments putOutputFrame {Input Output}.
Arguments mkStopped {Input Output}.
Arguments abort {Input Output}.
Arguments pool {Input Output}.
Arguments trace {Input Output}.

(** The result of a call kept with the equation that produced it. *)
Definition inspect {A : Type} (a : A) : {b : A | a = b} := exist _ a eq_refl.

End Pool.

(** ** [stacker.cpp] *)

Module Stacker.

Import LdDecodeMetaData.

(** The lines [diffDod] writes with [qDebug]. *)
Inductive DebugMessage : Type :=
| OnlyReceived (count : nat)
| NotInVisibleArea
| DodInput (inputValues : list Z)
| EmptyOutput (minValue maxValue : Z) (medianValue : float)
| DodOutput (outputValues : list Z).

(** The state of one [stackField] call: the local [prevGoodValue], the
    two reference parameters [outputField] and [dropOuts], and the debug
    output so far. *)
Record Scan : Type := mkScan {
  prevGoodValue : Z;
  outputField : list Z;
  dropOuts : DropOuts.t;
  debug : list DebugMessage
}.

(** The arguments [getInputFrame] fills in for one frame. *)
Record InputFrame : Type := mkInputFrame {
  firstFieldSeqNo : list Z;
  secondFieldSeqNo : list Z;
  firstSourceField : list (list Z);
  secondSourceField : list (list Z);
  firstFieldMetadata : list Field;
  secondFieldMetadata : list Field;
  videoParameters : list VideoParameters;
  reverse : bool;
  noDiffDod : bool;
  availableSourcesForFrame : list Z
}.

(** The arguments of [setOutputFrame] after the frame number. *)
Record OutputFrame : Type := mkOutputFrame {
  outputFirstField : list Z;
  outputSecondField : list Z;
  firstSeqNo : Z;
  secondSeqNo : Z;
  outputFirstFieldDropOuts : DropOuts.t;
  outputSecondFieldDropOuts : DropOuts.t
}.

(** [Stacker::isDropout]. *)
Fixpoint isDropout (dropOuts : DropOuts.t) (fieldX fieldY : Z) : bool :=
  match dropOuts with
  | [] => false
  | d :: rest =>
      if DropOuts.fieldLine d - 1 =? fieldY then
        if (DropOuts.startx d <=? fieldX) && (fieldX <=? DropOuts.endx d) then true
        else isDropout rest fieldX fieldY
      else isDropout rest fieldX fieldY
  end.

Section Engine.
Context {selection : NthElement}.

(** [DropOuts::concatenate] belongs to the metadata library. *)
Variable concatenate : DropOuts.t -> DropOuts.t.

(** [Stacker::median]. *)
Definition median (elements : list Z) : Z :=
  let noOfElements := length elements in
  if (noOfElements mod 2 =? 0)%nat then
    let elements := nth_element (noOfElements / 2) elements in
    let elements := nth_element ((noOfElements - 1) / 2) elements in
    let sum := nth ((noOfElements - 1) / 2) elements 0
               + nth (noOfElements / 2) elements 0 in
    Double.to_quint16 (Double.of_int sum / 2)%float
  else
    let elements := nth_element (noOfElements / 2) elements in
    nth (noOfElements / 2) elements 0.

(** [Stacker::diffDod], with the debug lines it writes. *)
Definition diffDod (inputValues : list Z) (videoParameters : VideoParameters)
    (xPos : Z) : list Z * list DebugMessage :=
  if (length inputValues <? 3)%nat then ([], [OnlyReceived (length inputValues)])
  else if xPos <? colourBurstStart videoParameters then ([], [NotInVisibleArea])
  else
    let medianValue := Double.of_int (median inputValues) in
    let threshold := 10%float in
    let maxValueD := (medianValue + ((medianValue / 100) * threshold))%float in
    let minValueD := (medianValue - ((medianValue / 100) * threshold))%float in
    let minValueD := if (minValueD <? 0)%float then 0%float else minValueD in
    let maxValueD := if (65535 <? maxValueD)%float then 65535%float else maxValueD in
    let minValue := Double.to_quint16 minValueD in
    let maxValue := Double.to_quint16 maxValueD in
    let outputValues :=
      filter (fun v => (minValue <? v) && (v <? maxValue)) inputValues in
    (outputValues,
     DodInput inputValues ::
       (if (length outputValues =? 0)%nat
        then [EmptyOutput minValue maxValue medianValue]
        else [DodOutput outputValues])).

Section Field.
Variable inputFields : list (list Z).
Variable videoParameters : VideoParameters.
Variable fieldMetadata : list Field.
Variable availableSourcesForFrame : list Z.
Variable noDiffDod : bool.

(** [(videoParameters.fieldWidth * y) + x]. *)
Definition pixelIndex (x y : Z) : Z := fieldWidth videoParameters * y + x.

(** [inputFields[source][(videoParameters.fieldWidth * y) + x]]. *)
Definition sample (source x y : Z) : Z :=
  at_ 0 (at_ [] inputFields source) (pixelIndex x y).

(** The first loop over the sources: the samples not marked as a
    dropout. *)
Fixpoint validValues (sources : list Z) (x y : Z) : list Z :=
  match sources with
  | [] => []
  | s :: rest =>
      if negb (isDropout (LdDecodeMetaData.dropOuts (at_ (mkField []) fieldMetadata s)) x y)
      then sample s x y :: validValues rest x y
      else validValues rest x y
  end.

(** The second loop over the sources: every non-zero sample, marked
    or not. *)
Fixpoint nonZeroValues (sources : list Z) (x y : Z) : list Z :=
  match sources with
  | [] => []
  | s :: rest =>
      let pixelValue := sample s x y in
      if 0 <? pixelValue then pixelValue :: nonZeroValues rest x y
      else nonZeroValues rest x y
  end.

(** The value set of a pixel, after the differential dropout
    detection when it applies, and the debug lines written. *)
Definition pixelValues (x y : Z) : list Z * list DebugMessage :=
  let inputValues := validValues availableSourcesForFrame x y in
  if (length inputValues <=? 3)%nat
     && (3 <? length availableSourcesForFrame)%nat
     && Bool.eqb noDiffDod false
  then diffDod (nonZeroValues availableSourcesForFrame x y) videoParameters x
  else (inputValues, []).

(** "Stack with intelligence": the output sample of a pixel from its
    value set.  [prevGoodValue] is read back from the sample just
    stored. *)
Definition stackValues (st : Scan) (x y : Z) (inputValues : list Z) : Scan :=
  let i := pixelIndex x y in
  if (2 <? length inputValues)%nat then
    let v := median inputValues in
    mkScan v (set_at (outputField st) i v) (dropOuts st) (debug st)
  else if (length inputValues =? 0)%nat then
    mkScan (prevGoodValue st)
           (set_at (outputField st) i (prevGoodValue st))
           (if colourBurstStart videoParameters <? x
            then DropOuts.append (dropOuts st) x x (y + 1)
            else dropOuts st)
           (debug st)
  else if (length inputValues =? 1)%nat then
    let v := nth 0 inputValues 0 in
    mkScan v (set_at (outputField st) i v) (dropOuts st) (debug st)
  else
    let first := Double.of_int (nth 0 inputValues 0) in
    let second := Double.of_int (nth 1 inputValues 0) in
    let avg := ((first + second) / 2)%float in
    let v := Double.to_quint16 avg in
    mkScan v (set_at (outputField st) i v) (dropOuts st) (debug st).

(** The body of the two nested loops. *)
Definition stackPixel (st : Scan) (x y : Z) : Scan :=
  let '(inputValues, messages) := pixelValues x y in
  stackValues
    (mkScan (prevGoodValue st) (outputField st) (dropOuts st) (debug st ++ messages))
    x y inputValues.

Definition stackLine (st : Scan) (y : Z) : Scan :=
  fold_left (fun st x => stackPixel st x y) (upto (fieldWidth videoParameters)) st.

(** The state at the start of a field. *)
Definition start (outputField : list Z) (dropOuts : DropOuts.t) : Scan :=
  mkScan 0 outputField dropOuts [].

(** [Stacker::stackField]: the output field and the dropouts it
    leaves in its two reference parameters. *)
Definition stackField (outputField : list Z) (dropOuts : DropOuts.t) : Scan :=
  let st := fold_left stackLine (upto (fieldHeight videoParameters))
                      (start outputField dropOuts) in
  if DropOuts.size (Stacker.dropOuts st) =? 0 then st
  else mkScan (prevGoodValue st) (Stacker.outputField st)
              (concatenate (Stacker.dropOuts st)) (debug st).
End Field.

(** One turn of the loop of [Stacker::run] on the frame it was handed. *)
Definition stackFrame (f : InputFrame) : OutputFrame :=
  let vp := at_ (mkVideoParameters false 0 0 0 0 0) (videoParameters f) 0 in
  let first :=
    stackField (firstSourceField f) vp (firstFieldMetadata f)
               (availableSourcesForFrame f) (noDiffDod f)
               (repeat 0 (length (at_ [] (firstSourceField f) 0))) [] in
  let second :=
    stackField (secondSourceField f) vp (secondFieldMetadata f)
               (availableSourcesForFrame f) (noDiffDod f)
               (repeat 0 (length (at_ [] (secondSourceField f) 0))) [] in
  mkOutputFrame (outputField first) (outputField second)
                (at_ 0 (firstFieldSeqNo f) 0) (at_ 0 (secondFieldSeqNo f) 0)
                (dropOuts first) (dropOuts second).

(** [Stacker::run]: the loop [while (!abort)].  The value
    [setOutputFrame] returns is dropped. *)
Equations? run (p : Pool.t InputFrame OutputFrame) (abort : bool)
    (trace : list Pool.Event) : Pool.Stopped InputFrame OutputFrame
    by wf (length (Pool.pending p)) lt :=
  run p true trace := Pool.mkStopped true p trace;
  run p false trace with Pool.inspect (Pool.getInputFrame p) => {
    | exist _ (None, p') _ := Pool.mkStopped false p' trace;
    | exist _ (Some (frameNumber, f), p') _ :=
        run (snd (Pool.putOutputFrame p' frameNumber (stackFrame f))) false
            (trace ++ [Pool.Claimed frameNumber;
                       Pool.Submitted frameNumber
                         (fst (Pool.putOutputFrame p' frameNumber (stackFrame f)))]) }.
Proof.
  rewrite Pool.putOutputFrame_pending.
  match goal with H : Pool.getInputFrame _ = _ |- _ =>
    rewrite (Pool.getInputFrame_pending _ _ _ _ _ H) end.
  simpl. lia.
Qed.

End Engine.

End Stacker.

(** ** [paldecoder.cpp] *)

Module PalDecoder.

Import LdDecodeMetaData.

(** Modelled from the spec: [PalDecoder::Configuration] is declared in
    the header of the decoder; these are the members [paldecoder.cpp]
    uses. *)
Record Configuration : Type := mkConfiguration {
  blackAndWhite : bool;
  videoParameters : VideoParameters;
  frameHeight : Z;
  firstActiveScanLine : Z;
  lastActiveScanLine : Z
}.

(** [activeVideoEnd - activeVideoStart]. *)
Definition activeWidth (vp : VideoParameters) : Z :=
  activeVideoEnd vp - activeVideoStart vp.

(** One turn of the loop "make sure output width is divisible by 16"
    past its exit test: a pixel is added on the right when the width is
    even and on the left when it is odd. *)
Definition widenStep (vp : VideoParameters) : VideoParameters :=
  let width := activeVideoEnd vp - activeVideoStart vp in
  if Z.rem width 2 =? 0 then set_activeVideoEnd vp (activeVideoEnd vp + 1)
  else set_activeVideoStart vp (activeVideoStart vp - 1).

Lemma widenStep_width (vp : VideoParameters) :
  activeWidth (widenStep vp) = activeWidth vp + 1.
Proof.
  unfold widenStep, activeWidth.
  destruct (Z.rem (activeVideoEnd vp - activeVideoStart vp) 2 =? 0); simpl; lia.
Qed.

(** The loop [while (true)] of [PalDecoder::configure]. *)
Equations? widen (vp : VideoParameters) : VideoParameters
    by wf (Z.to_nat ((- activeWidth vp) mod 16)) lt :=
  widen vp with Z.eq_dec (Z.rem (activeVideoEnd vp - activeVideoStart vp) 16) 0 => {
    | left _ := vp;
    | right _ := widen (widenStep vp) }.
Proof.
  rewrite widenStep_width. unfold activeWidth in *.
  remember (activeVideoEnd vp - activeVideoStart vp) as w.
  clear widen Heqw.
  pose proof (Z.rem_mod_eq_0 w 16 ltac:(lia)) as E.
  assert (w mod 16 <> 0) by (intro K; apply n, E, K).
  apply Z2Nat.inj_lt; try (apply Z.mod_pos_bound; lia).
  pose proof (Z.mod_pos_bound w 16 ltac:(lia)).
  rewrite (Z.mod_opp_l_nz w 16) by lia.
  replace (- (w + 1)) with (- w - 1) by lia.
  destruct (Z.eq_dec (w mod 16) 15) as [E15|N15].
  - replace (- w - 1) with (- (w + 1)) by lia.
    rewrite Z.mod_opp_l_z; try lia.
    rewrite <- Zplus_mod_idemp_l, E15. reflexivity.
  - replace (- w - 1) with (- (w + 1)) by lia.
    rewrite Z.mod_opp_l_nz; try lia.
    + rewrite <- (Zplus_mod_idemp_l w 1 16).
      rewrite (Z.mod_small (w mod 16 + 1)); lia.
    + rewrite <- (Zplus_mod_idemp_l w 1 16).
      rewrite (Z.mod_small (w mod 16 + 1)); lia.
Qed.

(** [PalDecoder::configure], on the [config] member: the value returned
    and the configuration left. *)
Definition configure (config : Configuration) (videoParameters : VideoParameters)
    : bool * Configuration :=
  if negb (isSourcePal videoParameters) then (false, config)
  else
    let frameHeight := fieldHeight videoParameters * 2 - 1 in
    let firstActiveScanLine := 44 in
    let lastActiveScanLine := 620 in
    let lastActiveScanLine :=
      if negb (Z.rem (lastActiveScanLine - firstActiveScanLine) 2 =? 0)
      then lastActiveScanLine - 1 else lastActiveScanLine in
    (true, mkConfiguration (blackAndWhite config) (widen videoParameters)
                           frameHeight firstActiveScanLine lastActiveScanLine).

(** The arguments [DecoderPool::getInputFrame] fills in for one frame. *)
Record InputFrame : Type := mkInputFrame {
  firstFieldData : list byte;
  secondFieldData : list byte;
  firstFieldPhaseID : Z;
  secondFieldPhaseID : Z;
  burstMedianIre : float
}.

(** [QByteArray::mid(pos, len)] of Qt 5: the bytes from [pos] on, [len]
    of them or as many as the array has. *)
Definition mid (a : list byte) (pos len : Z) : list byte :=
  let size := Z.of_nat (length a) in
  if size <? pos then []
  else if pos <? 0 then
    if (len <? 0) || (size <=? len + pos) then a
    else if len + pos <=? 0 then []
    else firstn (Z.to_nat (len + pos)) a
  else
    let len := if (len <? 0) || (size - pos <? len) then size - pos else len in
    firstn (Z.to_nat len) (skipn (Z.to_nat pos) a).

(** The saturation level from the burst median IRE. *)
Definition saturation (burstMedianIre : float) : float :=
  (125 + ((100 / 20) * (20 - burstMedianIre)))%float.

Section PalThread.
(** [PalColour::performDecode] belongs to the PALcolour library. *)
Variable performDecode : list byte -> list byte -> Z -> Z -> bool -> list byte.

Variable config : Configuration.

(** The lines of [PalThread::run] that strip the decoded frame to the
    active picture. *)
Definition crop (outputData : list byte) : list byte :=
  let activeVideoStart := activeVideoStart (videoParameters config) in
  let activeVideoEnd := activeVideoEnd (videoParameters config) in
  let blankLine := repeat x00 (Z.to_nat ((activeVideoEnd - activeVideoStart) * 6)) in
  let rgbOutputData :=
    fold_left (fun rgb _ => rgb ++ blankLine)
              (upto (576 - (lastActiveScanLine config - firstActiveScanLine config)))
              [] in
  fold_left
    (fun rgb y =>
       rgb ++ mid outputData
                  (y * fieldWidth (videoParameters config) * 6 + activeVideoStart * 6)
                  ((activeVideoEnd - activeVideoStart) * 6))
    (range (firstActiveScanLine config) (lastActiveScanLine config))
    rgbOutputData.

(** One turn of the loop of [PalThread::run] on the frame it was handed. *)
Definition decodeFrame (f : InputFrame) : list byte :=
  let tSaturation := saturation (burstMedianIre f) in
  crop (performDecode (firstFieldData f) (secondFieldData f) 100
                      (Double.to_qint32 tSaturation) (blackAndWhite config)).

(** [PalThread::run]: the loop [while (!abort)]. *)
Equations? run (p : Pool.t InputFrame (list byte)) (abort : bool)
    (trace : list Pool.Event) : Pool.Stopped InputFrame (list byte)
    by wf (length (Pool.pending p)) lt :=
  run p true trace := Pool.mkStopped true p trace;
  run p false trace with Pool.inspect (Pool.getInputFrame p) => {
    | exist _ (None, p') _ := Pool.mkStopped false p' trace;
    | exist _ (Some (frameNumber, f), p') _
        with Pool.inspect (Pool.putOutputFrame p' frameNumber (decodeFrame f)) => {
        | exist _ (false, p'') _ :=
            Pool.mkStopped true p''
              (trace ++ [Pool.Claimed frameNumber; Pool.Submitted frameNumber false]);
        | exist _ (true, p'') _ :=
            run p'' false
                (trace ++ [Pool.Claimed frameNumber; Pool.Submitted frameNumber true]) } }.
Proof.
  match goal with H : Pool.putOutputFrame _ _ _ = _ |- _ =>
    pose proof (Pool.putOutputFrame_pending _ _ p' frameNumber (decodeFrame f)) as K;
    rewrite H in K; simpl in K; rewrite K end.
  match goal with H : Pool.getInputFrame _ = _ |- _ =>
    rewrite (Pool.getInputFrame_pending _ _ _ _ _ H) end.
  simpl. lia.
Qed.

End PalThread.

End PalDecoder.

(* ===================================================================== *)
(** * Part II: properties *)
(* ===================================================================== *)

(** ** Facts on [double] arithmetic *)

Module DoubleFacts.

Import Double.

Lemma to_Z_of_Z_small (z : Z) : 0 <= z < 2 ^ 62 -> Uint63.to_Z (Uint63.of_Z z) = z.
Proof.
  intros Hz. rewrite Uint63.of_Z_spec. apply Z.mod_small.
  change wB with (2 ^ 63). lia.
Qed.

Lemma forall_range_spec (k : nat) : forall base width p,
  Uint63.to_Z width = 2 ^ Z.of_nat k ->
  Uint63.to_Z base + 2 ^ Z.of_nat k <= 2 ^ 62 ->
  forall_range k base width p = true ->
  forall z, Uint63.to_Z base <= z < Uint63.to_Z base + 2 ^ Z.of_nat k ->
  p (Uint63.of_Z z) = true.
Proof.
  induction k as [|k IH]; intros base width p Hw Hb H z Hz.
  - simpl in *. replace z with (Uint63.to_Z base) by lia.
    rewrite Uint63.of_to_Z. exact H.
  - cbn [forall_range] in H. apply andb_prop in H as [H1 H2].
    rewrite Nat2Z.inj_succ, Z.pow_succ_r in * by lia.
    assert (Hh : Uint63.to_Z (width >> 1)%uint63 = 2 ^ Z.of_nat k).
    { rewrite Uint63.lsr_spec, Hw. change (Uint63.to_Z 1) with 1.
      rewrite Z.pow_1_r. rewrite Z.mul_comm, Z.div_mul; lia. }
    pose proof (Uint63.to_Z_bounded base) as Bb.
    assert (P : 0 < 2 ^ Z.of_nat k) by (apply Z.pow_pos_nonneg; lia).
    destruct (Z_lt_le_dec z (Uint63.to_Z base + 2 ^ Z.of_nat k)).
    + apply (IH base (width >> 1)%uint63); auto; lia.
    + assert (Hs : Uint63.to_Z (base + (width >> 1))%uint63
                   = Uint63.to_Z base + 2 ^ Z.of_nat k).
      { rewrite Uint63.add_spec, Hh. apply Z.mod_small.
        change wB with (2 ^ 63). lia. }
      apply (IH (base + (width >> 1))%uint63 (width >> 1)%uint63); auto; lia.
Qed.

(** *** Halving an integer sum *)

Definition halve_ok (i : int) : bool :=
  (trunc_int (PrimFloat.of_uint63 i / 2)%float =? (i >> 1))%uint63.

(** [static_cast<quint16>(s / 2.0)] is [s / 2] rounded down, for every
    sum [s] of two 16-bit samples (all of them are tried). *)
Lemma halve_sum (s : Z) :
  0 <= s < 2 ^ 17 -> to_quint16 (of_int s / 2)%float = s / 2.
Proof.
  intros Hs.
  assert (H : forall_range 17 0%uint63 131072%uint63 halve_ok = true)
    by (vm_compute; reflexivity).
  pose proof (forall_range_spec 17 0%uint63 131072%uint63 halve_ok
                ltac:(vm_compute; reflexivity) ltac:(vm_compute; discriminate) H s) as K.
  change (Uint63.to_Z 0) with 0 in K. specialize (K ltac:(simpl Z.of_nat; lia)).
  unfold halve_ok in K. apply Uint63.eqb_correct in K.
  unfold to_quint16, of_int. rewrite K, Uint63.lsr_spec.
  change (Uint63.to_Z 1) with 1. rewrite Z.pow_1_r, to_Z_of_Z_small; [reflexivity | lia].
Qed.

Definition round_trip_ok (i : int) : bool :=
  (trunc_int (PrimFloat.of_uint63 i) =? i)%uint63.

(** Converting an integer below [2^17] to [double] and back gives the
    integer (all of them are tried). *)
Lemma to_quint16_of_int (z : Z) : 0 <= z < 2 ^ 17 -> to_quint16 (of_int z) = z.
Proof.
intros Hz.
assert (H : forall_range 17 0%uint63 131072%uint63 round_trip_ok = true)
  by (vm_compute; reflexivity).
pose proof (forall_range_spec 17 0%uint63 131072%uint63 round_trip_ok
              ltac:(vm_compute; reflexivity) ltac:(vm_compute; discriminate) H z) as K.
change (Uint63.to_Z 0) with 0 in K. specialize (K ltac:(simpl Z.of_nat; lia)).
unfold round_trip_ok in K. apply Uint63.eqb_correct in K.
unfold to_quint16, of_int. rewrite K. apply to_Z_of_Z_small. lia.
Qed.

Example to_quint16_drops_fraction :
  to_quint16 2.5%float = 2 /\ to_quint16 60.5%float = 60
  /\ to_quint16 0.75%float = 0 /\ to_quint16 65535%float = 65535.
Proof. repeat split. Qed.

Example to_qint32_toward_zero :
  to_qint32 (-2.5)%float = -2 /\ to_qint32 149.75%float = 149.
Proof. repeat split. Qed.

(** *** The acceptance band of [diffDod] *)

Definition bandMinD (medianValue : float) : float :=
  let minValueD := (medianValue - ((medianValue / 100) * 10))%float in
  if (minValueD <? 0)%float then 0%float else minValueD.

Definition bandMaxD (medianValue : float) : float :=
  let maxValueD := (medianValue + ((medianValue / 100) * 10))%float in
  if (65535 <? maxValueD)%float then 65535%float else maxValueD.

Definition band_ok (i : int) : bool :=
  let m := PrimFloat.of_uint63 i in
  (trunc_int (bandMinD m) =? (9 * i) / 10)%uint63 &&
  (trunc_int (bandMaxD m)
   =? (if (65535 <? (11 * i) / 10) then 65535 else (11 * i) / 10))%uint63.

(** The two bounds as integers, for every 16-bit median (all of them are
    tried): the roundings of [/ 100.0] and [* 10] never cross an integer. *)
Lemma band (m : Z) : 0 <= m < 2 ^ 16 ->
  to_quint16 (bandMinD (of_int m)) = 9 * m / 10 /\
  to_quint16 (bandMaxD (of_int m)) = Z.min 65535 (11 * m / 10).
Proof.
  intros Hs.
  assert (H : forall_range 16 0%uint63 65536%uint63 band_ok = true)
    by (vm_compute; reflexivity).
  pose proof (forall_range_spec 16 0%uint63 65536%uint63 band_ok
                ltac:(vm_compute; reflexivity) ltac:(vm_compute; discriminate) H m) as K.
  change (Uint63.to_Z 0) with 0 in K. specialize (K ltac:(simpl Z.of_nat; lia)).
  unfold band_ok in K. apply andb_prop in K as [K1 K2].
  apply Uint63.eqb_correct in K1, K2.
  assert (Hm : Uint63.to_Z (Uint63.of_Z m) = m) by (apply to_Z_of_Z_small; lia).
  assert (H9 : Uint63.to_Z (9 * Uint63.of_Z m / 10)%uint63 = 9 * m / 10).
  { rewrite Uint63.div_spec, Uint63.mul_spec, Hm.
    change (Uint63.to_Z 9) with 9. change (Uint63.to_Z 10) with 10.
    rewrite Z.mod_small; [reflexivity|]. change wB with (2 ^ 63). lia. }
  assert (H11 : Uint63.to_Z (11 * Uint63.of_Z m / 10)%uint63 = 11 * m / 10).
  { rewrite Uint63.div_spec, Uint63.mul_spec, Hm.
    change (Uint63.to_Z 11) with 11. change (Uint63.to_Z 10) with 10.
    rewrite Z.mod_small; [reflexivity|]. change wB with (2 ^ 63). lia. }
  unfold to_quint16, of_int. rewrite K1, K2, H9. split; [reflexivity|].
  destruct (65535 <? 11 * Uint63.of_Z m / 10)%uint63 eqn:E.
  - apply Uint63.ltb_spec in E. rewrite H11 in E.
    change (Uint63.to_Z 65535) with 65535 in *. lia.
  - rewrite H11. destruct (Z_lt_le_dec 65535 (11 * m / 10)) as [L|L]; [|lia].
    rewrite <- H11 in L. change 65535 with (Uint63.to_Z 65535) in L.
    apply Uint63.ltb_spec in L. congruence.
Qed.

(** *** Adding two samples

    The sum of two 16-bit integers is computed without rounding.  The
    proof follows the addition of [SpecFloat], the specification of the
    primitive operations, on the normal forms of the two operands. *)

(** The normal form of a positive integer below [2^53]: its bits moved
    up to 53 digits. *)
Definition canon (p : positive) : spec_float :=
  let d := Zpos (digits2_pos p) in
  S754_finite false (Pos.shiftl p (Z.to_N (53 - d))) (d - 53).

Lemma digits2_size p : digits2_pos p = Pos.size p.
Proof. induction p; simpl; congruence. Qed.

Lemma digits2_shiftl p n :
  Zpos (digits2_pos (Pos.shiftl p n)) = Zpos (digits2_pos p) + Z.of_N n.
Proof.
  destruct n as [|n]; simpl; [lia|].
  induction n using Pos.peano_ind.
  - simpl. lia.
  - rewrite Pos.iter_succ. simpl digits2_pos. lia.
Qed.

Lemma shiftl_Z p n : Zpos (Pos.shiftl p n) = Zpos p * 2 ^ Z.of_N n.
Proof.
  change (Zpos (Pos.shiftl p n)) with (Z.shiftl (Zpos p) (Z.of_N n)) at 1 || idtac.
  destruct n as [|n]; simpl Pos.shiftl.
  - simpl. lia.
  - change (Pos.iter xO p n) with (shift_pos n p).
    rewrite shift_pos_correct, Zpower_pos_nat, Zpower_nat_Z, positive_nat_Z. simpl Z.of_N. lia.
Qed.

Lemma digits_bound p : 2 ^ (Zpos (digits2_pos p) - 1) <= Zpos p < 2 ^ Zpos (digits2_pos p).
Proof.
  rewrite digits2_size. split.
  - pose proof (Pos.size_le p) as H.
    assert (2 ^ Zpos (Pos.size p) <= 2 * Zpos p).
    { change 2 with (Zpos 2) at 1. rewrite <- Pos2Z.inj_pow. lia. }
    replace (Zpos (Pos.size p)) with (Z.succ (Zpos (Pos.size p) - 1)) in H0 by lia.
    rewrite Z.pow_succ_r in H0 by lia. lia.
  - pose proof (Pos.size_gt p) as H.
    change 2 with (Zpos 2). rewrite <- Pos2Z.inj_pow. lia.
Qed.

Lemma iter_pos_iter {A} (f : A -> A) n : forall x, iter_pos f n x = Pos.iter f x n.
Proof.
  induction n; intros x; simpl.
  - rewrite !IHn. rewrite !Pos.iter_swap. reflexivity.
  - rewrite !IHn. reflexivity.
  - reflexivity.
Qed.

Lemma shiftl_succ r j : Pos.shiftl r (N.succ j) = xO (Pos.shiftl r j).
Proof.
  destruct j as [|q]; simpl; [reflexivity|]. apply Pos.iter_succ.
Qed.

Lemma shr_shiftl r n : forall j,
  Pos.iter shr_1 (Build_shr_record (Zpos (Pos.shiftl r (Npos n + j))) false false) n
  = Build_shr_record (Zpos (Pos.shiftl r j)) false false.
Proof.
  induction n using Pos.peano_ind; intros j.
  - replace (1 + j)%N with (N.succ j) by lia.
    rewrite shiftl_succ. reflexivity.
  - rewrite Pos.iter_succ.
    replace (N.pos (Pos.succ n) + j)%N with (N.pos n + N.succ j)%N by lia.
    rewrite IHn, shiftl_succ. reflexivity.
Qed.

Lemma fexp_64 x : fexp prec emax x = Z.max (x - 53) (-1074).
Proof. reflexivity. Qed.

Lemma shr_fexp_53 m e :
  Zpos (digits2_pos m) = 53 -> -1074 <= e ->
  shr_fexp prec emax (Zpos m) e loc_Exact
  = (Build_shr_record (Zpos m) false false, e).
Proof.
  intros Hd He. unfold shr_fexp, Zdigits2. rewrite Hd.
  rewrite fexp_64.
  replace (Z.max (53 + e - 53) (-1074) - e) with 0 by lia.
  reflexivity.
Qed.

(** A mantissa of 53 bits with an exponent in range is kept as it is. *)
Lemma round_aux_exact m e :
  Zpos (digits2_pos m) = 53 -> -1074 <= e <= 971 ->
  binary_round_aux prec emax false (Zpos m) e loc_Exact = S754_finite false m e.
Proof.
  intros Hd He. unfold binary_round_aux.
  rewrite shr_fexp_53 by lia.
  cbn [shr_m loc_of_shr_record round_nearest_even].
  rewrite shr_fexp_53 by lia.
  cbn [shr_m]. change (emax - prec) with 971.
  destruct (Z.leb_spec e 971); [reflexivity | lia].
Qed.

(** An integer of at most 53 digits rounds to its normal form. *)
Lemma round_canon p : Zpos (digits2_pos p) <= 53 ->
  binary_round prec emax false p 0 = canon p.
Proof.
  intros Hd. unfold binary_round, canon.
  set (d := Zpos (digits2_pos p)) in *.
  assert (1 <= d) by (unfold d; lia).
  rewrite fexp_64. fold d.
  replace (Z.max (d + 0 - 53) (-1074)) with (d - 53) by lia.
  unfold shl_align.
  destruct (Z.eq_dec d 53) as [E|N].
  - rewrite E. simpl. apply round_aux_exact; [exact E | lia].
  - destruct (d - 53 - 0) eqn:K; try lia.
    replace (Z.to_N (53 - d)) with (Npos p0) by lia.
    simpl Pos.shiftl.
    apply round_aux_exact; [| lia].
    change (Pos.iter xO p p0) with (Pos.shiftl p (Npos p0)).
    rewrite digits2_shiftl. fold d. lia.
Qed.

(** A mantissa with [k] zero bits below the bits of [r] is shifted right
    to 53 digits without losing a bit. *)
Lemma shr_fexp_shifted r k p :
  Zpos (digits2_pos r) <= 53 ->
  Zpos (digits2_pos r) + Z.of_N k - 53 = Zpos p ->
  shr_fexp prec emax (Zpos (Pos.shiftl r k)) (- Z.of_N k) loc_Exact
  = (Build_shr_record (Zpos (Pos.shiftl r (Z.to_N (53 - Zpos (digits2_pos r))))) false false,
     Zpos (digits2_pos r) - 53).
Proof.
  intros Hd K. unfold shr_fexp, Zdigits2. rewrite digits2_shiftl.
  set (d := Zpos (digits2_pos r)) in *.
  rewrite fexp_64.
  replace (Z.max (d + Z.of_N k + - Z.of_N k - 53) (-1074) - - Z.of_N k)
    with (Zpos p) by lia.
  cbn [shr_record_of_loc]. unfold shr.
  rewrite iter_pos_iter.
  replace k with (Npos p + Z.to_N (53 - d))%N at 1 by lia.
  rewrite shr_shiftl. f_equal. lia.
Qed.

(** So does the same integer written with [k] more zero bits and the
    exponent [- k]. *)
Lemma round_shifted r k :
  Zpos (digits2_pos r) <= 53 -> 53 <= Zpos (digits2_pos r) + Z.of_N k ->
  binary_round prec emax false (Pos.shiftl r k) (- Z.of_N k) = canon r.
Proof.
  intros Hd Hk. unfold binary_round, canon.
  rewrite digits2_shiftl.
  set (d := Zpos (digits2_pos r)) in *.
  assert (1 <= d) by (unfold d; lia).
  rewrite fexp_64.
  replace (Z.max (d + Z.of_N k + - Z.of_N k - 53) (-1074)) with (d - 53) by lia.
  unfold shl_align.
  destruct (d - 53 - - Z.of_N k) eqn:K; try lia.
  - (* already 53 bits *)
    replace (Z.to_N (53 - d)) with k by lia.
    replace (d - 53) with (- Z.of_N k) by lia.
    apply round_aux_exact; [| lia].
    rewrite digits2_shiftl. fold d. lia.
  - (* shifted right by [p] bits *)
    unfold binary_round_aux.
    rewrite (shr_fexp_shifted r k p) by (fold d; lia). fold d.
    cbn [shr_m loc_of_shr_record round_nearest_even].
    rewrite shr_fexp_53; [| rewrite digits2_shiftl; fold d; lia | lia].
    cbn [shr_m]. change (emax - prec) with 971.
    destruct (Z.leb_spec (d - 53) 971); [reflexivity | lia].
Qed.

Lemma shl_align_value m e ez : ez <= e ->
  Zpos (fst (shl_align m e ez)) = Zpos m * 2 ^ (e - ez).
Proof.
  intros H. unfold shl_align.
  destruct (ez - e) eqn:K; try lia.
  - replace (e - ez) with 0 by lia. simpl. lia.
  - cbn [fst]. change (Pos.iter xO m p) with (Pos.shiftl m (Npos p)).
    rewrite shiftl_Z. f_equal. f_equal. lia.
Qed.

Lemma digits_le p q : (p <= q)%positive -> Zpos (digits2_pos p) <= Zpos (digits2_pos q).
Proof.
  intros H. pose proof (digits_bound p) as [L _]. pose proof (digits_bound q) as [_ U].
  assert (2 ^ (Zpos (digits2_pos p) - 1) < 2 ^ Zpos (digits2_pos q)) as K by lia.
  apply Z.pow_lt_mono_r_iff in K; lia.
Qed.

Lemma digits_lt_pow p n : 0 <= n -> Zpos p < 2 ^ n -> Zpos (digits2_pos p) <= n.
Proof.
  intros Hn H. pose proof (digits_bound p) as [L _].
  assert (2 ^ (Zpos (digits2_pos p) - 1) < 2 ^ n) as K by lia.
  apply Z.pow_lt_mono_r_iff in K; lia.
Qed.

(** The sum of two normal forms is the normal form of the sum. *)
Lemma add_canon p q :
  Zpos p < 2 ^ 16 -> Zpos q < 2 ^ 16 ->
  SF64add (canon p) (canon q) = canon (p + q).
Proof.
  intros Hp Hq.
  pose proof (digits_lt_pow p 16 ltac:(lia) Hp) as Dp.
  pose proof (digits_lt_pow q 16 ltac:(lia) Hq) as Dq.
  assert (Dr : Zpos (digits2_pos (p + q)) <= 17)
    by (apply digits_lt_pow; [lia | rewrite Pos2Z.inj_add; lia]).
  pose proof (digits_le p (p + q) ltac:(lia)) as Lp.
  pose proof (digits_le q (p + q) ltac:(lia)) as Lq.
  unfold SF64add, SFadd, canon. cbn [cond_Zopp].
  set (dp := Zpos (digits2_pos p)) in *. set (dq := Zpos (digits2_pos q)) in *.
  set (dr := Zpos (digits2_pos (p + q))) in *.
  assert (1 <= dp) by (unfold dp; lia). assert (1 <= dq) by (unfold dq; lia).
  set (ez := Z.min (dp - 53) (dq - 53)).
  assert (E : Zpos (fst (shl_align (Pos.shiftl p (Z.to_N (53 - dp))) (dp - 53) ez))
              + Zpos (fst (shl_align (Pos.shiftl q (Z.to_N (53 - dq))) (dq - 53) ez))
              = Zpos (Pos.shiftl (p + q) (Z.to_N (- ez)))).
  { rewrite !shl_align_value by (unfold ez; lia).
    rewrite !shiftl_Z, !Z2N.id by (unfold ez; lia).
    rewrite <- !Z.mul_assoc, <- !Z.pow_add_r by (unfold ez; lia).
    replace (53 - dp + (dp - 53 - ez)) with (- ez) by lia.
    replace (53 - dq + (dq - 53 - ez)) with (- ez) by lia.
    rewrite Pos2Z.inj_add. lia. }
  rewrite E. cbn [binary_normalize].
  replace ez with (- Z.of_N (Z.to_N (- ez))) at 2 by (rewrite Z2N.id; unfold ez; lia).
  apply round_shifted; fold dr; [lia|].
  rewrite Z2N.id by (unfold ez; lia). unfold ez. lia.
Qed.

Lemma Prim2SF_of_int z : 0 <= z < 2 ^ 53 ->
  Prim2SF (of_int z) = match z with Zpos p => canon p | _ => S754_zero false end.
Proof.
  intros Hz. unfold of_int. rewrite of_uint63_spec, Uint63.of_Z_spec.
  rewrite Z.mod_small by (change wB with (2 ^ 63); lia).
  destruct z as [|p|p]; try lia; [reflexivity|].
  cbn [binary_normalize]. apply round_canon.
  apply digits_lt_pow; lia.
Qed.

(** [static_cast<double>(a) + static_cast<double>(b)] is the sum of the
    two integers, for 16-bit [a] and [b]. *)
Lemma add_exact a b : 0 <= a < 2 ^ 16 -> 0 <= b < 2 ^ 16 ->
  (of_int a + of_int b)%float = of_int (a + b).
Proof.
  intros Ha Hb. apply Prim2SF_inj.
  rewrite FloatAxioms.add_spec, !Prim2SF_of_int by lia.
  destruct a as [|p|p], b as [|q|q]; try lia; try reflexivity.
  cbn [Z.add]. apply add_canon; lia.
Qed.

End DoubleFacts.


(** ** Order statistics *)

Module OrderFacts.

Lemma insert_perm (x : Z) (l : list Z) : Permutation (x :: l) (insert x l).
Proof.
induction l as [|h t IH]; simpl; [apply Permutation_refl|].
destruct (x <=? h); [apply Permutation_refl|].
eapply perm_trans; [apply perm_swap|]. apply perm_skip, IH.
Qed.

Lemma sort_perm (l : list Z) : Permutation l (sort l).
Proof.
induction l as [|h t IH]; simpl; [constructor|].
eapply perm_trans; [apply perm_skip, IH | apply insert_perm].
Qed.

Lemma sort_length (l : list Z) : length (sort l) = length l.
Proof. symmetry. apply Permutation_length, sort_perm. Qed.

Lemma insert_sorted (x : Z) (l : list Z) :
  StronglySorted Z.le l -> StronglySorted Z.le (insert x l).
Proof.
induction 1 as [|h t St IH Hh]; simpl.
- repeat constructor.
- destruct (Z.leb_spec x h) as [L|L].
  + constructor; [constructor; assumption|].
    constructor; [exact L|].
    eapply Forall_impl; [|exact Hh]. intros; lia.
  + constructor; [exact IH|].
    eapply Permutation_Forall; [apply insert_perm|].
    constructor; [lia | exact Hh].
Qed.

Lemma sort_sorted (l : list Z) : StronglySorted Z.le (sort l).
Proof.
induction l as [|h t IH]; simpl; [constructor | apply insert_sorted, IH].
Qed.

(** Two ordered lists with the same elements are the same list. *)
Lemma sorted_unique (l : list Z) : forall l',
  StronglySorted Z.le l -> StronglySorted Z.le l' -> Permutation l l' -> l = l'.
Proof.
induction l as [|a t IH]; intros l' S S' P.
- apply Permutation_nil in P. subst. reflexivity.
- destruct l' as [|b t'].
  + symmetry in P. apply Permutation_nil in P. discriminate.
  + inversion S as [|? ? St Ha]; subst. inversion S' as [|? ? St' Hb]; subst.
    assert (a = b).
    { assert (In b (a :: t)) as Ib
        by (eapply Permutation_in; [symmetry; exact P | left; reflexivity]).
      assert (In a (b :: t')) as Ia
        by (eapply Permutation_in; [exact P | left; reflexivity]).
      rewrite Forall_forall in Ha, Hb.
      destruct Ib as [->|Ib]; [reflexivity|].
      destruct Ia as [<-|Ia]; [reflexivity|].
      specialize (Ha _ Ib). specialize (Hb _ Ia). lia. }
    subst b. f_equal. apply IH; auto.
    eapply Permutation_cons_inv, P.
Qed.

Lemma sort_of_perm (l l' : list Z) : Permutation l l' -> sort l = sort l'.
Proof.
intros P. apply sorted_unique; try apply sort_sorted.
eapply perm_trans; [symmetry; apply sort_perm|].
eapply perm_trans; [exact P | apply sort_perm].
Qed.

Lemma sort_of_sorted (l : list Z) : StronglySorted Z.le l -> sort l = l.
Proof.
intros S. apply sorted_unique; auto using sort_sorted.
symmetry. apply sort_perm.
Qed.

Lemma sorted_nth_le (l : list Z) : StronglySorted Z.le l ->
  forall i j, (i <= j < length l)%nat -> nth i l 0 <= nth j l 0.
Proof.
induction 1 as [|h t St IH Hh]; intros i j Hij; simpl in Hij; [lia|].
destruct i as [|i], j as [|j]; simpl; try lia.
- rewrite Forall_forall in Hh. apply Hh, nth_In. lia.
- apply IH. lia.
Qed.

(** Sorting a list that is already cut in a lower and an upper part sorts
    the two parts. *)
Lemma sort_app (a b : list Z) :
  (forall x y, In x a -> In y b -> x <= y) -> sort (a ++ b) = sort a ++ sort b.
Proof.
intros Hab. apply sorted_unique.
- apply sort_sorted.
- assert (Hs : forall x y, In x (sort a) -> In y (sort b) -> x <= y).
  { intros x y Hx Hy. apply Hab.
    - eapply Permutation_in; [symmetry; apply sort_perm | exact Hx].
    - eapply Permutation_in; [symmetry; apply sort_perm | exact Hy]. }
  pose proof (sort_sorted a) as Sa. revert Hs.
  induction Sa as [|h t St IH Hh]; intros Hs; simpl; [apply sort_sorted|].
  constructor.
  + apply IH. intros x y Hx Hy. apply Hs; [right; exact Hx | exact Hy].
  + apply Forall_app. split; [exact Hh|].
    apply Forall_forall. intros y Hy. apply Hs; [left; reflexivity | exact Hy].
- eapply perm_trans; [symmetry; apply sort_perm|].
  apply Permutation_app; apply sort_perm.
Qed.

(** When the first element of a list is its least, the second order
    statistic does not exceed the second element. *)
Lemma second_order_stat (b0 b1 : Z) (rest : list Z) :
  nth 0 (sort (b0 :: b1 :: rest)) 0 = b0 -> nth 1 (sort (b0 :: b1 :: rest)) 0 <= b1.
Proof.
change (sort (b0 :: b1 :: rest)) with (insert b0 (sort (b1 :: rest))).
pose proof (sort_sorted (b1 :: rest)) as S.
assert (I : In b1 (sort (b1 :: rest)))
  by (eapply Permutation_in; [apply sort_perm | left; reflexivity]).
destruct (sort (b1 :: rest)) as [|t0 t]; [destruct I|].
assert (t0 <= b1).
{ inversion S as [|? ? _ Ht]; subst. rewrite Forall_forall in Ht.
  destruct I as [->|I]; [lia | apply Ht, I]. }
simpl. destruct (Z.leb_spec b0 t0); simpl; intros E; lia.
Qed.

Lemma order_stat_In (k : nat) (l : list Z) : (k < length l)%nat -> In (order_stat k l) l.
Proof.
intros H. eapply Permutation_in; [symmetry; apply sort_perm|].
apply nth_In. rewrite sort_length. exact H.
Qed.

Lemma sort_nth_le (l : list Z) (i j : nat) :
  (i <= j < length l)%nat -> nth i (sort l) 0 <= nth j (sort l) 0.
Proof.
intros H. apply sorted_nth_le; [apply sort_sorted | rewrite sort_length; exact H].
Qed.

(** A full sort meets the contract of [std::nth_element]. *)
Definition sorting : NthElement :=
  Build_NthElement (fun _ l => sort l)
    (fun _ l => sort_perm l)
    (fun k l _ => eq_refl)
    (fun k l i j Hi Hj => sort_nth_le l i j (conj (Nat.lt_le_incl _ _ (Nat.lt_le_trans _ _ _ Hi (proj1 Hj))) (proj2 Hj))).

(** A selection that sorts up to position [k] and leaves the rest in
    descending order meets the contract as well. *)
Definition descending_tail (k : nat) (l : list Z) : list Z :=
  firstn (S k) (sort l) ++ rev (skipn (S k) (sort l)).

Lemma descending_tail_perm (k : nat) (l : list Z) : Permutation l (descending_tail k l).
Proof.
unfold descending_tail.
eapply perm_trans; [apply sort_perm|].
rewrite <- (firstn_skipn (S k) (sort l)) at 1.
apply Permutation_app_head, Permutation_rev.
Qed.

Lemma descending_tail_head (k i : nat) (l : list Z) :
  (i <= k)%nat -> (i < length l)%nat ->
  nth i (descending_tail k l) 0 = nth i (sort l) 0.
Proof.
intros Hi Hl. unfold descending_tail.
rewrite app_nth1 by (rewrite length_firstn, sort_length; lia).
rewrite nth_firstn. destruct (Nat.ltb_spec i (S k)); [reflexivity | lia].
Qed.

Lemma descending_tail_split (k : nat) (l : list Z) (i j : nat) :
  (i < k)%nat -> (k <= j < length l)%nat ->
  nth i (descending_tail k l) 0 <= nth j (descending_tail k l) 0.
Proof.
intros Hi Hj. rewrite (descending_tail_head k i) by lia.
destruct (Nat.le_gt_cases j k) as [Le|Gt].
- rewrite (descending_tail_head k j) by lia. apply sort_nth_le. lia.
- unfold descending_tail.
  rewrite app_nth2 by (rewrite length_firstn, sort_length; lia).
  rewrite length_firstn, sort_length.
  assert (I : In (nth (j - Nat.min (S k) (length l)) (rev (skipn (S k) (sort l))) 0)
                 (skipn (S k) (sort l))).
  { apply in_rev, nth_In. rewrite length_rev, length_skipn, sort_length. lia. }
  destruct (In_nth _ _ 0 I) as (m & Hm & <-).
  rewrite length_skipn, sort_length in Hm.
  rewrite nth_skipn. apply sort_nth_le. lia.
Qed.

Definition reversing : NthElement :=
  Build_NthElement descending_tail descending_tail_perm
    (fun k l H => descending_tail_head k k l (Nat.le_refl k) H)
    descending_tail_split.

End OrderFacts.

(** ** The stacking engine *)

Module StackerFacts.

Import LdDecodeMetaData Stacker OrderFacts.

(** A 16-bit sample. *)
Definition quint16 (v : Z) : Prop := 0 <= v < 65536.

Section Engine.
Context {selection : NthElement}.
Variable concatenate : DropOuts.t -> DropOuts.t.

Lemma nth_element_length (k : nat) (l : list Z) : length (nth_element k l) = length l.
Proof. symmetry. apply Permutation_length, nth_element_perm. Qed.

Lemma nth_element_sort (k : nat) (l : list Z) : sort (nth_element k l) = sort l.
Proof. symmetry. apply sort_of_perm, nth_element_perm. Qed.

Lemma nth_element_In (k i : nat) (l : list Z) :
  (i < length l)%nat -> In (nth i (nth_element k l) 0) l.
Proof.
intros H. eapply Permutation_in; [symmetry; apply nth_element_perm|].
apply nth_In. rewrite nth_element_length. exact H.
Qed.

(** After a selection at position [k], the element one place further is
    not below the order statistic of that place. *)
Lemma after_selection (k : nat) (l : list Z) :
  (S k < length l)%nat -> order_stat (S k) l <= nth (S k) (nth_element k l) 0.
Proof.
intros Hk. set (l2 := nth_element k l).
assert (Hlen : length l2 = length l) by apply nth_element_length.
assert (Hcut : sort l2 = sort (firstn k l2) ++ sort (skipn k l2)).
{ rewrite <- sort_app; [rewrite firstn_skipn; reflexivity|].
  intros x y Hx Hy.
  destruct (In_nth _ _ 0 Hx) as (i & Hi & <-).
  destruct (In_nth _ _ 0 Hy) as (j & Hj & <-).
  rewrite length_firstn in Hi. rewrite length_skipn in Hj.
  rewrite nth_firstn, nth_skipn.
  destruct (Nat.ltb_spec i k); [|lia].
  apply nth_element_split; lia. }
assert (HlenA : length (sort (firstn k l2)) = k)
  by (rewrite sort_length, length_firstn; lia).
assert (Hos : forall i, order_stat (k + i) l = nth i (sort (skipn k l2)) 0).
{ intros i. unfold order_stat. rewrite <- (nth_element_sort k l). fold l2.
  rewrite Hcut, app_nth2 by lia. f_equal. lia. }
assert (H0 : nth 0 (sort (skipn k l2)) 0 = nth k l2 0).
{ rewrite <- Hos, Nat.add_0_r. symmetry. apply nth_element_nth. lia. }
replace (S k) with (k + 1)%nat at 1 by lia. rewrite Hos.
assert (Hb0 : nth 0 (skipn k l2) 0 = nth k l2 0) by (rewrite nth_skipn; f_equal; lia).
assert (Hb1 : nth 1 (skipn k l2) 0 = nth (S k) l2 0) by (rewrite nth_skipn; f_equal; lia).
assert (HlenB : (2 <= length (skipn k l2))%nat) by (rewrite length_skipn; lia).
destruct (skipn k l2) as [|b0 [|b1 rest]]; simpl in HlenB; try lia.
simpl in Hb0, Hb1. subst b0 b1.
apply second_order_stat. exact H0.
Qed.

Lemma median_odd (elements : list Z) :
  (length elements mod 2 = 1)%nat ->
  median elements = order_stat (length elements / 2) elements.
Proof.
intros Hodd. unfold median. rewrite Hodd. cbn [Nat.eqb].
apply nth_element_nth.
apply Nat.div_lt; [|lia]. destruct elements; simpl in *; [discriminate | lia].
Qed.

Lemma median_even (elements : list Z) :
  (length elements mod 2 = 0)%nat -> elements <> [] -> Forall quint16 elements ->
  median elements
  = (order_stat ((length elements - 1) / 2) elements
     + nth (length elements / 2)
           (nth_element ((length elements - 1) / 2)
                        (nth_element (length elements / 2) elements)) 0) / 2.
Proof.
intros Heven Hne Hr. unfold median. rewrite Heven. cbn [Nat.eqb].
set (n := length elements).
assert (Hn : (0 < n)%nat) by (unfold n; destruct elements; simpl; [congruence | lia]).
assert (Hhalf : (n / 2 < n)%nat) by (apply Nat.div_lt; lia).
assert (Hlow : ((n - 1) / 2 < n)%nat)
  by (apply Nat.Div0.div_lt_upper_bound; lia).
set (l1 := nth_element (n / 2) elements).
assert (Hl1 : length l1 = n) by apply nth_element_length.
rewrite (nth_element_nth ((n - 1) / 2) l1) by lia.
assert (E : order_stat ((n - 1) / 2) l1 = order_stat ((n - 1) / 2) elements)
  by (unfold order_stat, l1; rewrite nth_element_sort; reflexivity).
rewrite E. apply DoubleFacts.halve_sum.
rewrite Forall_forall in Hr.
assert (quint16 (order_stat ((n - 1) / 2) elements))
  by (apply Hr, order_stat_In; exact Hlow).
assert (quint16 (nth (n / 2) (nth_element ((n - 1) / 2) l1) 0)).
{ apply Hr. eapply Permutation_in; [symmetry; apply (nth_element_perm (n / 2))|].
  apply nth_element_In. rewrite nth_element_length. exact Hhalf. }
unfold quint16 in *. lia.
Qed.

Lemma median_quint16 (elements : list Z) :
  elements <> [] -> Forall quint16 elements -> quint16 (median elements).
Proof.
intros Hne Hr.
assert (Hn : (0 < length elements)%nat) by (destruct elements; simpl; [congruence | lia]).
destruct (Nat.mod_bound_pos (length elements) 2 ltac:(lia) ltac:(lia)) as [_ Hm].
destruct (length elements mod 2)%nat as [|[|k]] eqn:E; [| |lia].
- rewrite median_even by assumption.
  set (n := length elements) in *.
  assert (Hhalf : (n / 2 < n)%nat) by (apply Nat.div_lt; lia).
  assert (Hlow : ((n - 1) / 2 < n)%nat) by (apply Nat.Div0.div_lt_upper_bound; lia).
  pose proof Hr as Hf. rewrite Forall_forall in Hf.
  assert (quint16 (order_stat ((n - 1) / 2) elements))
    by (apply Hf, order_stat_In; exact Hlow).
  assert (quint16 (nth (n / 2) (nth_element ((n - 1) / 2) (nth_element (n / 2) elements)) 0)).
  { apply Hf. eapply Permutation_in; [symmetry; apply (nth_element_perm (n / 2))|].
    apply nth_element_In. rewrite nth_element_length. lia. }
  unfold quint16 in *. split; [apply Z.div_pos; lia | apply Z.div_lt_upper_bound; lia].
- rewrite median_odd by assumption.
  rewrite Forall_forall in Hr. apply Hr, order_stat_In, Nat.div_lt; lia.
Qed.

(** *** The median ([Stacker::median]) *)

(** The median the specification describes: the middle order statistic of
    an odd-length set, the mean of the two central order statistics of an
    even-length set. *)
Definition median_spec (elements : list Z) : Q :=
  let n := length elements in
  if (n mod 2 =? 0)%nat
  then (inject_Z (order_stat (n / 2 - 1) elements)
        + inject_Z (order_stat (n / 2) elements)) / inject_Z 2
  else inject_Z (order_stat (n / 2) elements).

(** The same median as a 16-bit sample: the mean of the two central order
    statistics loses its half. *)
Definition central (elements : list Z) : Z :=
  let n := length elements in
  if (n mod 2 =? 0)%nat
  then (order_stat (n / 2 - 1) elements + order_stat (n / 2) elements) / 2
  else order_stat (n / 2) elements.

Lemma central_floor (elements : list Z) : central elements = Qfloor (median_spec elements).
Proof.
unfold central, median_spec.
destruct (length elements mod 2 =? 0)%nat; [|simpl; rewrite Z.div_1_r; reflexivity].
unfold Qfloor, Qdiv, Qmult, Qinv, Qplus, inject_Z. cbn [Qnum Qden].
rewrite !Z.mul_1_r. reflexivity.
Qed.

Section Field.
Variable inputFields : list (list Z).
Variable videoParameters : VideoParameters.
Variable fieldMetadata : list Field.
Variable availableSourcesForFrame : list Z.
Variable noDiffDod : bool.

Abbreviation pixelValues := (pixelValues inputFields videoParameters fieldMetadata
                                     availableSourcesForFrame noDiffDod).
Abbreviation stackPixel := (stackPixel inputFields videoParameters fieldMetadata
                                   availableSourcesForFrame noDiffDod).
Abbreviation pixelIndex := (pixelIndex videoParameters).

Lemma stackPixel_values (st : Scan) (x y : Z) :
  stackPixel st x y
  = stackValues videoParameters
      (mkScan (prevGoodValue st) (outputField st) (dropOuts st)
              (debug st ++ snd (pixelValues x y)))
      x y (fst (pixelValues x y)).
Proof.
unfold Stacker.stackPixel. destruct pixelValues. reflexivity.
Qed.

(** What the contract of [std::nth_element] settles about the sample
    stored at a pixel whose value set has more than two 16-bit values.  For
    an odd-length set it is the middle order statistic.  For an even-length
    set the second selection is free to move the element the first one put
    at index [n / 2]: what is read there is a value of the set that is not
    below the upper central order statistic, and nothing more is known of
    it unless the selection leaves the range in ascending order. *)
Lemma median_order_statistic (st : Scan) (x y : Z) (values : list Z) :
  fst (pixelValues x y) = values ->
  (2 < length values)%nat ->
  Forall quint16 values ->
  let n := length values in
  let selected := nth_element ((n - 1) / 2) (nth_element (n / 2) values) in
  let upper := nth (n / 2) selected 0 in
  outputField (stackPixel st x y) = set_at (outputField st) (pixelIndex x y) (median values)
  /\ prevGoodValue (stackPixel st x y) = median values
  /\ ((n mod 2 = 1)%nat -> median values = order_stat (n / 2) values)
  /\ ((n mod 2 = 0)%nat ->
      median values = (order_stat (n / 2 - 1) values + upper) / 2
      /\ In upper values
      /\ order_stat (n / 2) values <= upper
      /\ (StronglySorted Z.le selected -> upper = order_stat (n / 2) values)).
Proof.
intros Hv Hlen Hr n selected upper.
rewrite stackPixel_values, Hv. unfold stackValues.
destruct (Nat.ltb_spec 2 (length values)) as [_|]; [|lia]. cbn [outputField prevGoodValue].
split; [reflexivity|]. split; [reflexivity|]. split.
- apply median_odd.
- intros Heven.
  assert (Hne : values <> []) by (destruct values; simpl in *; [lia | discriminate]).
  assert (Hk : ((n - 1) / 2 = n / 2 - 1)%nat).
  { unfold n in *. pose proof (Nat.div_mod_eq (length values) 2) as D.
    rewrite Heven in D.
    replace (length values - 1)%nat with (1 + (length values / 2 - 1) * 2)%nat by lia.
    rewrite Nat.div_add by lia. simpl. lia. }
  assert (Hhalf : (n / 2 < n)%nat) by (apply Nat.div_lt; unfold n; lia).
  assert (Hpos : (0 < n / 2)%nat).
  { unfold n in *. pose proof (Nat.div_mod_eq (length values) 2). lia. }
  split; [|split; [|split]].
  + rewrite median_even by assumption. fold n. unfold upper, selected.
    rewrite Hk. reflexivity.
  + eapply Permutation_in; [symmetry; apply (nth_element_perm (n / 2))|].
    apply nth_element_In. rewrite nth_element_length. exact Hhalf.
  + unfold upper, selected. rewrite Hk.
    assert (E : (n / 2 = S (n / 2 - 1))%nat) by lia.
    pose proof (after_selection (n / 2 - 1) (nth_element (n / 2) values)) as A.
    rewrite nth_element_length in A. specialize (A ltac:(unfold n in *; lia)).
    unfold order_stat in *. rewrite nth_element_sort in A.
    rewrite <- E in A. exact A.
  + intros S. unfold upper, order_stat. f_equal.
    rewrite <- (sort_of_sorted selected S). unfold selected.
    rewrite !nth_element_sort. reflexivity.
Qed.

(** *** Two values: the average *)

(** C7.  At a pixel whose value set has exactly two 16-bit values [a] and
    [b], the sample stored (and remembered as the previous good value) is
    [(a + b) / 2] rounded down: the sum and its half are exact in binary64
    and the conversion to [quint16] drops the fraction. *)
Theorem average_of_two (st : Scan) (x y a b : Z) :
  fst (pixelValues x y) = [a; b] ->
  quint16 a -> quint16 b ->
  outputField (stackPixel st x y) = set_at (outputField st) (pixelIndex x y) ((a + b) / 2)
  /\ prevGoodValue (stackPixel st x y) = (a + b) / 2.
Proof.
intros Hv Ha Hb. unfold quint16 in *.
rewrite stackPixel_values, Hv. unfold stackValues.
cbn [length Nat.ltb Nat.leb Nat.eqb nth outputField prevGoodValue].
rewrite DoubleFacts.add_exact by lia.
rewrite DoubleFacts.halve_sum by lia.
split; reflexivity.
Qed.

(** *** The scan of a field *)

(** The pixels of a field in the order of the two nested loops. *)
Definition pixels : list (Z * Z) :=
  flat_map (fun y => map (fun x => (x, y)) (upto (fieldWidth videoParameters)))
           (upto (fieldHeight videoParameters)).

(** The state of [stackField] after its first [k] pixels. *)
Definition scanned (k : nat) (outputField : list Z) (dropOuts : DropOuts.t) : Scan :=
  fold_left (fun st p => stackPixel st (fst p) (snd p)) (firstn k pixels)
            (start outputField dropOuts).

Lemma stackLine_pixels (y : Z) (cols : list Z) : forall st,
  fold_left (fun st x => stackPixel st x y) cols st
  = fold_left (fun st p => stackPixel st (fst p) (snd p)) (map (fun x => (x, y)) cols) st.
Proof.
induction cols as [|c cols IH]; intros st; simpl; [reflexivity | apply IH].
Qed.

Lemma stackField_pixels (rows : list Z) : forall st,
  fold_left (stackLine inputFields videoParameters fieldMetadata
                       availableSourcesForFrame noDiffDod) rows st
  = fold_left (fun st p => stackPixel st (fst p) (snd p))
      (flat_map (fun y => map (fun x => (x, y)) (upto (fieldWidth videoParameters))) rows) st.
Proof.
induction rows as [|r rows IH]; intros st; simpl; [reflexivity|].
rewrite fold_left_app, IH. f_equal. apply stackLine_pixels.
Qed.

(** [stackField] is the scan of all the pixels, followed by the merge of
    the dropouts when there are any. *)
Lemma stackField_scanned (out : list Z) (dos : DropOuts.t) :
  let st := scanned (length pixels) out dos in
  stackField concatenate inputFields videoParameters fieldMetadata
             availableSourcesForFrame noDiffDod out dos
  = if DropOuts.size (dropOuts st) =? 0 then st
    else mkScan (prevGoodValue st) (outputField st) (concatenate (dropOuts st)) (debug st).
Proof.
unfold stackField, scanned. rewrite firstn_all, stackField_pixels. reflexivity.
Qed.

Lemma scanned_step (k : nat) (x y : Z) (out : list Z) (dos : DropOuts.t) :
  nth_error pixels k = Some (x, y) ->
  scanned (S k) out dos = stackPixel (scanned k out dos) x y.
Proof.
intros H. unfold scanned.
assert (E : firstn (S k) pixels = firstn k pixels ++ [(x, y)]).
{ revert H. generalize pixels. induction k as [|k IH]; intros [|p l] H; simpl in *;
    try discriminate.
  - inversion H. reflexivity.
  - f_equal. apply IH, H. }
rewrite E, fold_left_app. reflexivity.
Qed.

(** *** When the rescue runs *)

Lemma diffDod_speaks (inputValues : list Z) (vp : VideoParameters) (xPos : Z) :
  snd (diffDod inputValues vp xPos) <> [].
Proof.
unfold diffDod.
destruct (length inputValues <? 3)%nat; [discriminate|].
destruct (xPos <? colourBurstStart vp); discriminate.
Qed.

(** C2 (as amended).  At every pixel, [diffDod] runs (on the non-zero
    samples of all the available sources, and its result replaces the value
    set) if and only if at most three samples are valid, more than three
    sources are available and [noDiffDod] is false; a pixel with no valid
    sample at all is rescued too.  Otherwise the valid samples are the
    value set and [diffDod] writes nothing. *)
Theorem rescue_condition (st : Scan) (x y : Z) :
  let validCount := length (validValues inputFields videoParameters fieldMetadata
                                        availableSourcesForFrame x y) in
  let rescue := (validCount <= 3)%nat /\ (3 < length availableSourcesForFrame)%nat
                /\ noDiffDod = false in
  (debug (stackPixel st x y) <> debug st <-> rescue)
  /\ (rescue ->
      pixelValues x y
      = diffDod (nonZeroValues inputFields videoParameters availableSourcesForFrame x y)
                videoParameters x)
  /\ (~ rescue ->
      pixelValues x y
      = (validValues inputFields videoParameters fieldMetadata availableSourcesForFrame x y,
         [])).
Proof.
intros validCount rescue.
assert (Hd : debug (stackPixel st x y) = debug st ++ snd (pixelValues x y)).
{ rewrite stackPixel_values. unfold stackValues.
  repeat match goal with |- context [if ?c then _ else _] => destruct c end; reflexivity. }
assert (Hdec : (rescue /\ pixelValues x y
                  = diffDod (nonZeroValues inputFields videoParameters
                                           availableSourcesForFrame x y) videoParameters x)
               \/ (~ rescue /\ pixelValues x y
                  = (validValues inputFields videoParameters fieldMetadata
                                 availableSourcesForFrame x y, []))).
{ unfold Stacker.pixelValues, rescue, validCount.
  destruct (Nat.leb_spec (length (validValues inputFields videoParameters fieldMetadata
                                              availableSourcesForFrame x y)) 3);
    destruct (Nat.ltb_spec 3 (length availableSourcesForFrame));
    destruct noDiffDod; simpl;
    first [left; split; [repeat split; assumption | reflexivity]
          | right; split; [intros (? & ? & ?); first [lia | discriminate] | reflexivity]]. }
split; [|split].
- rewrite Hd. destruct Hdec as [[R E]|[R E]]; rewrite E; split; intros H.
  + exact R.
  + intros K. apply (diffDod_speaks (nonZeroValues inputFields videoParameters
                                       availableSourcesForFrame x y) videoParameters x).
    rewrite <- (app_nil_r (debug st)) in K at 2. apply app_inv_head in K. exact K.
  + simpl in H. rewrite app_nil_r in H. congruence.
  + contradiction.
- intros R. destruct Hdec as [[_ E]|[N _]]; [exact E | contradiction].
- intros N. destruct Hdec as [[R _]|[_ E]]; [contradiction | exact E].
Qed.

End Field.

(** *** The differential dropout detection ([Stacker::diffDod]) *)

(** The result the specification describes: the values strictly inside
    the band of the median plus or minus 10% of the median, clamped to
    [0, 65535]; nothing below three values or left of the colour burst. *)
Definition diffDod_spec (inputValues : list Z) (videoParameters : VideoParameters)
    (xPos : Z) : list Z :=
  if (length inputValues <? 3)%nat then []
  else if xPos <? colourBurstStart videoParameters then []
  else
    let m := median_spec inputValues in
    let tenth := (m * (10 # 100))%Q in
    let minValue := Qminmax.Qmax 0 (m - tenth) in
    let maxValue := Qminmax.Qmin (inject_Z 65535) (m + tenth) in
    filter (fun v => negb (Qle_bool (inject_Z v) minValue)
                     && negb (Qle_bool maxValue (inject_Z v))) inputValues.

(** The band as the code holds it, around the value [median] returns:
    two integers, [9 * m / 10] rounded down and [11 * m / 10] rounded down
    and capped at 65535. *)
Lemma diffDod_filter (inputValues : list Z) (videoParameters : VideoParameters)
    (xPos : Z) :
  Forall quint16 inputValues ->
  (3 <= length inputValues)%nat -> colourBurstStart videoParameters <= xPos ->
  fst (diffDod inputValues videoParameters xPos)
  = filter (fun v => (9 * median inputValues / 10 <? v)
                     && (v <? Z.min 65535 (11 * median inputValues / 10))) inputValues.
Proof.
intros Hr Hn Hx. unfold diffDod.
destruct (Nat.ltb_spec (length inputValues) 3); [lia|].
destruct (Z.ltb_spec xPos (colourBurstStart videoParameters)); [lia|].
assert (Hm : 0 <= median inputValues < 2 ^ 16).
{ apply median_quint16; [|exact Hr]. destruct inputValues; simpl in *; [lia | discriminate]. }
destruct (DoubleFacts.band (median inputValues) Hm) as [Hmin Hmax].
unfold DoubleFacts.bandMinD, DoubleFacts.bandMaxD in Hmin, Hmax.
cbv zeta in Hmin, Hmax. cbv zeta. cbn [fst].
rewrite Hmin, Hmax. reflexivity.
Qed.

(** [median] returns the median (as a sample) of an odd-length set, and
    of an even-length set when the element read at index [n / 2] is the
    upper central order statistic. *)
Lemma median_central (elements : list Z) :
  elements <> [] -> Forall quint16 elements ->
  (length elements mod 2 = 1)%nat
  \/ nth (length elements / 2)
         (nth_element ((length elements - 1) / 2)
                      (nth_element (length elements / 2) elements)) 0
     = order_stat (length elements / 2) elements ->
  median elements = central elements.
Proof.
intros Hne Hr H. unfold central.
destruct (Nat.mod_bound_pos (length elements) 2 ltac:(lia) ltac:(lia)) as [_ Hm].
destruct (length elements mod 2)%nat as [|[|k]] eqn:E; [| |lia]; cbn [Nat.eqb].
- destruct H as [H|H]; [discriminate|].
  rewrite median_even, H by assumption.
  replace ((length elements - 1) / 2)%nat with (length elements / 2 - 1)%nat; [reflexivity|].
  pose proof (Nat.div_mod_eq (length elements) 2) as D. rewrite E in D.
  assert (0 < length elements)%nat by (destruct elements; simpl; [congruence | lia]).
  replace (length elements - 1)%nat with (1 + (length elements / 2 - 1) * 2)%nat by lia.
  rewrite Nat.div_add by lia. simpl. lia.
- apply median_odd. exact E.
Qed.

(** C3 (as amended).  With fewer than three values, or left of the
    colour-burst start, [diffDod] returns nothing.  Otherwise, for an odd
    number of values, and for an even number when the element [median]
    reads at index [n / 2] is the upper central order statistic, it
    returns, in their order, the values strictly between the two bounds
    as the code holds them: integers, nine tenths of the median rounded
    down and eleven tenths of the median rounded down and capped at 65535.
    The median [m] here is that of the specification (the middle order
    statistic, or the mean of the two central ones, as a sample), not
    whatever [median] returns. *)
Theorem diffDod_band (inputValues : list Z) (videoParameters : VideoParameters)
    (xPos : Z) :
  Forall quint16 inputValues ->
  let n := length inputValues in
  let upper := nth (n / 2) (nth_element ((n - 1) / 2) (nth_element (n / 2) inputValues)) 0 in
  let m := central inputValues in
  let minValue := 9 * m / 10 in
  let maxValue := Z.min 65535 (11 * m / 10) in
  m = Qfloor (median_spec inputValues)
  /\ ((n < 3)%nat \/ xPos < colourBurstStart videoParameters ->
      fst (diffDod inputValues videoParameters xPos) = [])
  /\ ((3 <= n)%nat -> colourBurstStart videoParameters <= xPos ->
      (n mod 2 = 1)%nat \/ upper = order_stat (n / 2) inputValues ->
      fst (diffDod inputValues videoParameters xPos)
      = filter (fun v => (minValue <? v) && (v <? maxValue)) inputValues).
Proof.
intros Hr n upper m minValue maxValue.
split; [apply central_floor|]. split.
- unfold diffDod. intros [H|H].
  + destruct (Nat.ltb_spec (length inputValues) 3); [reflexivity | unfold n in H; lia].
  + destruct (length inputValues <? 3)%nat; [reflexivity|].
    destruct (Z.ltb_spec xPos (colourBurstStart videoParameters)); [reflexivity | lia].
- intros Hn Hx Hsel.
  rewrite diffDod_filter by assumption.
  rewrite (median_central inputValues); [reflexivity | | exact Hr | exact Hsel].
  destruct inputValues; simpl in *; [unfold n in Hn; simpl in Hn; lia | discriminate].
Qed.

(** *** Dropout lookup ([Stacker::isDropout]) *)

End Engine.

(** C6.  [isDropout] is true exactly when some entry of the table, in
    any order and merged or not, lies on line [y + 1] and covers column
    [x]. *)
Theorem isDropout_iff (dropOuts : DropOuts.t) (x y : Z) :
  isDropout dropOuts x y = true <->
  exists d, In d dropOuts
            /\ DropOuts.fieldLine d - 1 = y
            /\ DropOuts.startx d <= x <= DropOuts.endx d.
Proof.
induction dropOuts as [|d rest IH]; simpl.
- split; [discriminate | intros (d & [] & _)].
- destruct (Z.eqb_spec (DropOuts.fieldLine d - 1) y) as [Hy|Hy].
  + destruct (Z.leb_spec (DropOuts.startx d) x) as [Hs|Hs];
      destruct (Z.leb_spec x (DropOuts.endx d)) as [He|He]; simpl.
    * split; [intros _; exists d; auto | reflexivity].
    * rewrite IH. split; intros (d' & Hin & Hl & Hc).
      -- exists d'; auto.
      -- destruct Hin as [<-|Hin]; [lia | exists d'; auto].
    * rewrite IH. split; intros (d' & Hin & Hl & Hc).
      -- exists d'; auto.
      -- destruct Hin as [<-|Hin]; [lia | exists d'; auto].
    * rewrite IH. split; intros (d' & Hin & Hl & Hc).
      -- exists d'; auto.
      -- destruct Hin as [<-|Hin]; [lia | exists d'; auto].
  + rewrite IH. split; intros (d' & Hin & Hl & Hc).
    * exists d'; auto.
    * destruct Hin as [<-|Hin]; [contradiction | exists d'; auto].
Qed.

End StackerFacts.

(** ** The stacking engine on concrete fields *)

Module StackerExamples.

Import LdDecodeMetaData Stacker OrderFacts StackerFacts.

(** A field of one line and [width] columns whose colour burst starts at
    column 0. *)
Definition geometry (width : Z) : VideoParameters :=
  mkVideoParameters true 0 0 width width 1.

(** Sources of one pixel each, none of them marked as a dropout. *)
Definition clean (n : nat) : list Field := repeat (mkField []) n.

(** Sources whose pixel [(0, 0)] is marked as a dropout. *)
Definition marked (n : nat) : list Field :=
  repeat (mkField [DropOuts.mkDropOut 0 0 1]) n.

Lemma median_order_statistic_witness :
  prevGoodValue
    (stackPixel (selection := sorting) [[10]; [20]; [30]; [40]] (geometry 1) (clean 4)
                [0; 1; 2; 3] false (start [0] []) 0 0) = 25
  /\ median (selection := sorting) [10; 20; 30] = 20.
Proof.
destruct (median_order_statistic (selection := sorting)
            [[10]; [20]; [30]; [40]] (geometry 1) (clean 4) [0; 1; 2; 3] false
            (start [0] []) 0 0 [10; 20; 30; 40])
  as (_ & H & _);
  [reflexivity | simpl; lia | repeat constructor; unfold quint16; lia |].
split; [rewrite H|]; reflexivity.
Defined.

(** The mean of two central values with an odd sum loses its half when
    it is stored as a sample: the median of [{1, 2, 3, 4}] is 2 in the
    code, under a selection that sorts the whole range, and 5/2 in the
    specification. *)
Lemma median_truncates :
  median (selection := sorting) [1; 2; 3; 4] = 2
  /\ median_spec [1; 2; 3; 4] = (5 # 2)%Q
  /\ Qeq_bool (inject_Z (median (selection := sorting) [1; 2; 3; 4]))
              (median_spec [1; 2; 3; 4]) = false.
Proof. repeat split. Qed.

(** The even-length median rests on what the second [std::nth_element]
    call leaves above its position, which the contract does not fix: a
    selection that orders the range gives 25 for [{10, 20, 30, 40}],
    one that leaves the upper part in descending order gives 30. *)
Example median_depends_on_selection :
  median (selection := sorting) [10; 20; 30; 40] = 25
  /\ median (selection := reversing) [10; 20; 30; 40] = 30.
Proof. split; reflexivity. Qed.

(** The ten samples of a pixel seen by ten sources: six of 100, two of
    200 and two of 300.  Both central order statistics are 100. *)
Definition ten : list Z := [100; 100; 300; 200; 200; 100; 100; 100; 300; 100].

(** C4.  The sample stored for an even-length value set is not always
    its median.  [median] averages the elements at indices [(n - 1) / 2]
    and [n / 2] after selecting at [n / 2] and then at [(n - 1) / 2]; the
    second selection is free to move what the first one put at [n / 2].  On
    the ten samples above, whose median is 100, the sample stored is half
    of 100 plus whatever the selections leave at index 5, under every
    selection; a selection within the contract of [std::nth_element]
    leaves 300 there and the pixel gets 200.  The example of the
    specification, [{10, 20, 30, 40}] with median 25, gets 30 in the same
    way.  A selection that orders the whole range gives the median. *)
Theorem median_reads_moved_element :
  let sources := map (fun v => [v]) ten in
  let fused (selection : NthElement) :=
    stackPixel sources (geometry 1) (clean 10) (upto 10) false (start [0] []) 0 0 in
  Qeq_bool (median_spec ten) (inject_Z 100) = true
  /\ central ten = 100
  /\ (forall selection : NthElement,
        outputField (fused selection) = [median ten]
        /\ median ten = (100 + nth 5 (nth_element 4 (nth_element 5 ten)) 0) / 2)
  /\ outputField (fused reversing) = [200]
  /\ outputField (fused sorting) = [100]
  /\ median (selection := reversing) [10; 20; 30; 40] = 30
  /\ Qeq_bool (median_spec [10; 20; 30; 40]) (inject_Z 25) = true.
Proof.
intros sources fused.
split; [reflexivity|]. split; [reflexivity|]. split; [|repeat split].
intros selection. split; [reflexivity|].
rewrite median_even;
  [reflexivity | reflexivity | discriminate | repeat constructor; unfold quint16; lia].
Qed.

(** The two arrangements GNU libstdc++ (its [__introselect], GCC 12)
    leaves of the ten samples: after the selection at index 5, and after
    the selection at index 4, which moves a 200 to index 5. *)
Definition tenSelected5 : list Z := [100; 100; 100; 100; 100; 100; 200; 300; 300; 200].
Definition tenSelected4 : list Z := [100; 100; 100; 100; 100; 200; 100; 300; 300; 200].

(** A selection that does on the ten samples what libstdc++ does, and
    orders every other range. *)
Definition replayed (k : nat) (l : list Z) : list Z :=
  if (k =? 5)%nat && (if list_eq_dec Z.eq_dec l ten then true else false)
  then tenSelected5
  else if (k =? 4)%nat && (if list_eq_dec Z.eq_dec l tenSelected5 then true else false)
  then tenSelected4
  else sort l.

Lemma replayed_cases (k : nat) (l : list Z) :
  (k = 5%nat /\ l = ten /\ replayed k l = tenSelected5)
  \/ (k = 4%nat /\ l = tenSelected5 /\ replayed k l = tenSelected4)
  \/ replayed k l = sort l.
Proof.
unfold replayed.
destruct (Nat.eqb_spec k 5) as [K5|K5]; cbn [andb].
- destruct (list_eq_dec Z.eq_dec l ten) as [L|L]; [left; auto|].
  destruct (Nat.eqb_spec k 4); [lia | right; right; reflexivity].
- destruct (Nat.eqb_spec k 4) as [K4|K4]; cbn [andb]; [|right; right; reflexivity].
  destruct (list_eq_dec Z.eq_dec l tenSelected5) as [L|L];
    [right; left; auto | right; right; reflexivity].
Qed.

Lemma replayed_perm (k : nat) (l : list Z) : Permutation l (replayed k l).
Proof.
destruct (replayed_cases k l) as [(_ & -> & ->) | [(_ & -> & ->) | ->]];
  [| |apply sort_perm].
- apply (perm_trans (sort_perm ten)).
  change (sort ten) with (sort tenSelected5). symmetry. apply sort_perm.
- apply (perm_trans (sort_perm tenSelected5)).
  change (sort tenSelected5) with (sort tenSelected4). symmetry. apply sort_perm.
Qed.

Lemma replayed_nth (k : nat) (l : list Z) :
  (k < length l)%nat -> nth k (replayed k l) 0 = order_stat k l.
Proof.
intros _.
destruct (replayed_cases k l) as [(-> & -> & ->) | [(-> & -> & ->) | ->]]; reflexivity.
Qed.

Lemma replayed_split (k : nat) (l : list Z) (i j : nat) :
  (i < k)%nat -> (k <= j < length l)%nat ->
  nth i (replayed k l) 0 <= nth j (replayed k l) 0.
Proof.
intros Hi Hj.
destruct (replayed_cases k l) as [(-> & -> & ->) | [(-> & -> & ->) | ->]].
- simpl in Hj.
  do 5 (destruct i as [|i]; [do 10 (destruct j as [|j]; [simpl; lia|]); lia|]); lia.
- simpl in Hj.
  do 4 (destruct i as [|i]; [do 10 (destruct j as [|j]; [simpl; lia|]); lia|]); lia.
- apply sort_nth_le. lia.
Qed.

Definition replaying : NthElement :=
  Build_NthElement replayed replayed_perm replayed_nth replayed_split.

(** With the arrangements of libstdc++ the pixel of the ten sources gets
    150, for a median of 100. *)
Example median_of_ten_replayed :
  nth_element (NthElement := replaying) 5 ten = tenSelected5
  /\ nth_element (NthElement := replaying) 4 tenSelected5 = tenSelected4
  /\ median (selection := replaying) ten = 150
  /\ outputField (stackPixel (selection := replaying) (map (fun v => [v]) ten) (geometry 1)
                             (clean 10) (upto 10) false (start [0] []) 0 0) = [150].
Proof. repeat split. Qed.

(** The scenarios of the specification on whole fields of one pixel:
    four clean sources; five sources of which two are clean, without and
    with the rescue. *)
Example stackField_scenarios :
  outputField (stackField (selection := sorting) (fun d => d)
                 [[100]; [102]; [98]; [200]] (geometry 1) (clean 4) [0; 1; 2; 3] false
                 [0] []) = [101]
  /\ outputField (stackField (selection := sorting) (fun d => d)
                    [[50]; [52]; [51]; [9000]; [49]] (geometry 1)
                    (clean 2 ++ marked 3) [0; 1; 2; 3; 4] true [0] []) = [51]
  /\ outputField (stackField (selection := sorting) (fun d => d)
                    [[50]; [52]; [51]; [9000]; [49]] (geometry 1)
                    (clean 2 ++ marked 3) [0; 1; 2; 3; 4] false [0] []) = [50].
Proof. repeat split. Qed.

Lemma average_of_two_witness :
  outputField
    (stackPixel (selection := sorting) [[3]; [4]] (geometry 1) (clean 2)
                [0; 1] false (start [0] []) 0 0) = [3].
Proof.
destruct (average_of_two (selection := sorting) [[3]; [4]] (geometry 1) (clean 2)
            [0; 1] false (start [0] []) 0 0 3 4) as [H _];
  [reflexivity | unfold quint16; lia | unfold quint16; lia |].
rewrite H. reflexivity.
Defined.

(** C2 as stated fails with no valid sample: four sources all marked as
    dropouts at the pixel, rescue enabled; [diffDod] runs on the four raw
    samples and rescues them. *)
Lemma rescue_without_valid_sample :
  length (validValues [[100]; [100]; [100]; [100]] (geometry 1) (marked 4)
                      [0; 1; 2; 3] 0 0) = 0%nat
  /\ debug (stackPixel (selection := sorting) [[100]; [100]; [100]; [100]] (geometry 1)
                       (marked 4) [0; 1; 2; 3] false (start [0] []) 0 0)
     = [DodInput [100; 100; 100; 100]; DodOutput [100; 100; 100; 100]]
  /\ outputField (stackPixel (selection := sorting) [[100]; [100]; [100]; [100]]
                             (geometry 1) (marked 4) [0; 1; 2; 3] false
                             (start [0] []) 0 0) = [100].
Proof. repeat split. Qed.

Lemma diffDod_band_witness :
  fst (diffDod (selection := sorting) ten (geometry 1) 0)
  = [100; 100; 100; 100; 100; 100]
  /\ fst (diffDod (selection := sorting) [50; 52; 51; 9000; 49] (geometry 1) 0)
     = [50; 52; 51; 49].
Proof.
split.
- destruct (diffDod_band (selection := sorting) ten (geometry 1) 0) as (_ & _ & H);
    [repeat constructor; unfold quint16; lia |].
  rewrite H; [reflexivity | simpl; lia | simpl; lia | right; reflexivity].
- destruct (diffDod_band (selection := sorting) [50; 52; 51; 9000; 49] (geometry 1) 0)
    as (_ & _ & H); [repeat constructor; unfold quint16; lia |].
  rewrite H; [reflexivity | simpl; lia | simpl; lia | left; reflexivity].
Defined.

(** C3 as stated fails when 110% of the median is not an integer: with
    the median 55 the band of the specification ends at 60.5 and contains
    60, the upper bound of the code is the integer 60 and excludes it.  The
    set has three values, so that the median is the middle order statistic
    under every selection.  For an even number of values the centre of the
    band is a sample too: the four values below have the median 105.5 and
    all lie in the band of the specification, which ends at 116.05; the
    code, with a selection that orders the range, centres the band on 105
    and excludes 116. *)
Lemma diffDod_upper_bound_truncated :
  fst (diffDod (selection := sorting) [55; 55; 60] (geometry 1) 0) = [55; 55]
  /\ fst (diffDod (selection := reversing) [55; 55; 60] (geometry 1) 0) = [55; 55]
  /\ diffDod_spec [55; 55; 60] (geometry 1) 0 = [55; 55; 60]
  /\ fst (diffDod (selection := sorting) [105; 106; 116; 100] (geometry 1) 0)
     = [105; 106; 100]
  /\ diffDod_spec [105; 106; 116; 100] (geometry 1) 0 = [105; 106; 116; 100].
Proof. repeat split. Qed.

End StackerExamples.

(** ** The worker loops *)

Module WorkerFacts.

Import Pool.

(** What [Stacker::run] does on the frames it finds: every frame is
    claimed and submitted, whatever the sink answers. *)
Definition stacker_events {Input : Type} (faulty : Z -> bool) (frames : list (Z * Input))
    : list Event :=
  flat_map (fun nf => [Claimed (fst nf); Submitted (fst nf) (negb (faulty (fst nf)))])
           frames.

(** What [PalThread::run] does on the frames it finds, and the value of
    the flag it leaves: it goes no further than the first refused result. *)
Fixpoint pal_events {Input : Type} (faulty : Z -> bool) (frames : list (Z * Input))
    : list Event * bool :=
  match frames with
  | [] => ([], false)
  | (n, _) :: rest =>
      if faulty n then ([Claimed n; Submitted n false], true)
      else
        let '(events, flag) := pal_events faulty rest in
        (Claimed n :: Submitted n true :: events, flag)
  end.

Lemma putOutputFrame_fst {Input Output : Type} (p : Pool.t Input Output) (n : Z)
    (out : Output) :
  fst (putOutputFrame p n out) = negb (faulty p n).
Proof. unfold putOutputFrame. destruct (faulty p n); reflexivity. Qed.

Lemma putOutputFrame_faulty {Input Output : Type} (p : Pool.t Input Output) (n : Z)
    (out : Output) :
  faulty (snd (putOutputFrame p n out)) = faulty p.
Proof. unfold putOutputFrame. destruct (faulty p n); reflexivity. Qed.

Lemma getInputFrame_faulty {Input Output : Type} (p p' : Pool.t Input Output)
    (f : option (Z * Input)) :
  getInputFrame p = (f, p') -> faulty p' = faulty p.
Proof.
unfold getInputFrame. destruct (pending p); intros H; inversion H; reflexivity.
Qed.

Lemma getInputFrame_none {Input Output : Type} (p p' : Pool.t Input Output) :
  getInputFrame p = (None, p') -> pending p = [].
Proof.
unfold getInputFrame. destruct (pending p); intros H; [reflexivity | discriminate].
Qed.

Section Stacker.
Context {selection : NthElement}.
Variable concatenate : DropOuts.t -> DropOuts.t.

(** [Stacker::run] never sets the flag and goes through all the frames. *)
Lemma stacker_run_trace (p : Pool.t Stacker.InputFrame Stacker.OutputFrame)
    (abort : bool) (tr : list Event) :
  abort = false ->
  Pool.abort (Stacker.run concatenate p abort tr) = false
  /\ trace (Stacker.run concatenate p abort tr)
     = tr ++ stacker_events (faulty p) (pending p).
Proof.
funelim (Stacker.run concatenate p abort tr); intros Hab; try discriminate.
- match goal with IH : _ -> _ /\ _ |- _ => destruct (IH eq_refl) as [Ha Ht] end.
  split; [exact Ha|]. rewrite Ht.
  match goal with E : getInputFrame _ = _ |- _ =>
    rewrite (getInputFrame_pending _ _ _ _ _ E), putOutputFrame_pending,
            putOutputFrame_faulty, putOutputFrame_fst,
            (getInputFrame_faulty _ _ _ E) end.
  simpl. rewrite <- app_assoc. reflexivity.
- match goal with E : getInputFrame _ = _ |- _ =>
    rewrite (getInputFrame_none _ _ E) end.
  simpl. rewrite app_nil_r. split; reflexivity.
Qed.

End Stacker.

Section PalThread.
Variable performDecode : list byte -> list byte -> Z -> Z -> bool -> list byte.
Variable config : PalDecoder.Configuration.

Lemma pal_run_trace (p : Pool.t PalDecoder.InputFrame (list byte))
    (abort : bool) (tr : list Event) :
  abort = false ->
  Pool.abort (PalDecoder.run performDecode config p abort tr)
  = snd (pal_events (faulty p) (pending p))
  /\ trace (PalDecoder.run performDecode config p abort tr)
     = tr ++ fst (pal_events (faulty p) (pending p)).
Proof.
funelim (PalDecoder.run performDecode config p abort tr); intros Hab; try discriminate.
- (* no frame left *)
  match goal with E : getInputFrame _ = _ |- _ =>
    rewrite (getInputFrame_none _ _ E) end.
  simpl. rewrite app_nil_r. split; reflexivity.
- (* the result was collected *)
  match goal with IH : _ -> _ /\ _ |- _ => destruct (IH eq_refl) as [Ha Ht] end.
  match goal with
  | E : getInputFrame _ = _, F : putOutputFrame _ _ _ = _ |- _ =>
      rewrite (getInputFrame_pending _ _ _ _ _ E); simpl;
      pose proof (putOutputFrame_fst p' frameNumber
                    (PalDecoder.decodeFrame performDecode config f)) as K;
      pose proof (putOutputFrame_faulty p' frameNumber
                    (PalDecoder.decodeFrame performDecode config f)) as Kf;
      pose proof (putOutputFrame_pending _ _ p' frameNumber
                    (PalDecoder.decodeFrame performDecode config f)) as Kp;
      rewrite F in K, Kf, Kp; simpl in K, Kf, Kp;
      rewrite <- (getInputFrame_faulty _ _ _ E)
  end.
  rewrite Kf, Kp in *.
  destruct (faulty p' frameNumber); [discriminate|].
  destruct (pal_events (faulty p') (pending p')) as [events flag].
  simpl in *. split; [exact Ha|]. rewrite Ht, <- app_assoc. reflexivity.
- (* the result was refused *)
  match goal with
  | E : getInputFrame _ = _, F : putOutputFrame _ _ _ = _ |- _ =>
      rewrite (getInputFrame_pending _ _ _ _ _ E); simpl;
      pose proof (putOutputFrame_fst p' frameNumber
                    (PalDecoder.decodeFrame performDecode config f)) as K;
      rewrite F in K; simpl in K;
      rewrite <- (getInputFrame_faulty _ _ _ E)
  end.
  destruct (faulty p' frameNumber); [|discriminate]. split; reflexivity.
Qed.

Lemma pal_events_failure {Input : Type} (faulty : Z -> bool) (frames : list (Z * Input)) :
  forall pre n post,
  fst (pal_events faulty frames) = pre ++ Submitted n false :: post ->
  post = [] /\ snd (pal_events faulty frames) = true.
Proof.
induction frames as [|[m f] rest IH]; intros pre n post H; simpl in *.
- destruct pre; discriminate.
- destruct (faulty m) eqn:Fm.
  + simpl in *. destruct pre as [|e1 [|e2 [|e3 pre]]]; try discriminate.
    inversion H. split; reflexivity.
  + destruct (pal_events faulty rest) as [events flag] eqn:E. simpl in *.
    destruct pre as [|e1 [|e2 pre]]; try discriminate.
    inversion H; subst. eapply IH. reflexivity.
Qed.

(** The PAL worker meets the failure protocol: a refused result is the
    last thing the worker does with the pool, and the flag is set. *)
Lemma pal_run_stops_at_failure (p : Pool.t PalDecoder.InputFrame (list byte))
    (pre post : list Event) (n : Z) :
  trace (PalDecoder.run performDecode config p false []) = pre ++ Submitted n false :: post ->
  post = [] /\ Pool.abort (PalDecoder.run performDecode config p false []) = true.
Proof.
destruct (pal_run_trace p false [] eq_refl) as [Ha Ht]. rewrite Ha, Ht. simpl.
apply pal_events_failure.
Qed.

End PalThread.

(** A frame of one source and one pixel per field. *)
Definition onePixelFrame : Stacker.InputFrame :=
  Stacker.mkInputFrame [1] [2] [[5]] [[6]]
    [LdDecodeMetaData.mkField []] [LdDecodeMetaData.mkField []]
    [LdDecodeMetaData.mkVideoParameters true 0 0 1 1 1] false false [0].

(** A pool with the frames 1 and 2 to process, whose sink refuses the
    result of frame 1. *)
Definition refusingPool {Input Output : Type} (f : Input) : Pool.t Input Output :=
  Pool.mk [(1, f); (2, f)] [] (fun n => n =? 1).

(** C1 fails for the stacking worker.  On a pool whose sink refuses the
    result of the first of two frames, [Stacker::run] does not set the
    cancellation flag and goes on to claim and submit the second frame;
    [PalThread::run] on a pool of the same shape sets the flag and stops
    with the second frame unclaimed. *)
Theorem stacker_run_ignores_failure :
  let stacked := Stacker.run (selection := OrderFacts.sorting) (fun d => d)
                             (refusingPool onePixelFrame) false [] in
  let decoded := PalDecoder.run (fun _ _ _ _ _ => []) 
                   (PalDecoder.mkConfiguration false
                      (LdDecodeMetaData.mkVideoParameters true 0 0 1 1 1) 1 0 0)
                   (refusingPool (PalDecoder.mkInputFrame [] [] 0 0 20%float)) false [] in
  Pool.abort stacked = false
  /\ trace stacked = [Claimed 1; Submitted 1 false; Claimed 2; Submitted 2 true]
  /\ map fst (pending (pool stacked)) = []
  /\ Pool.abort decoded = true
  /\ trace decoded = [Claimed 1; Submitted 1 false]
  /\ map fst (pending (pool decoded)) = [2].
Proof.
cbv zeta.
destruct (stacker_run_trace (selection := OrderFacts.sorting) (fun d => d)
            (refusingPool onePixelFrame) false [] eq_refl) as [Ha Ht].
rewrite Ha, Ht.
repeat split.
Qed.

End WorkerFacts.

(** ** The PAL geometry and the cropped frame *)

Module PalDecoderFacts.

Import LdDecodeMetaData PalDecoder.

(** *** The active width ([PalDecoder::configure]) *)

Lemma rem_16_mod (w : Z) : Z.rem w 16 = 0 <-> w mod 16 = 0.
Proof. apply Z.rem_mod_eq_0. lia. Qed.

(** The number of pixels missing to the next multiple of 16. *)
Definition missing (w : Z) : Z := (- w) mod 16.

Lemma missing_zero (w : Z) : Z.rem w 16 = 0 -> missing w = 0.
Proof.
intros H. apply rem_16_mod in H. unfold missing.
apply Z.mod_opp_l_z; lia.
Qed.

Lemma missing_step (w : Z) : Z.rem w 16 <> 0 -> missing w = missing (w + 1) + 1.
Proof.
intros H. assert (Hm : w mod 16 <> 0) by (intro K; apply H, rem_16_mod, K).
unfold missing.
pose proof (Z.mod_pos_bound w 16 ltac:(lia)) as B.
rewrite (Z.mod_opp_l_nz w 16) by lia.
destruct (Z.eq_dec (w mod 16) 15) as [E15|N15].
- rewrite Z.mod_opp_l_z; try lia.
  rewrite <- Zplus_mod_idemp_l, E15. reflexivity.
- rewrite Z.mod_opp_l_nz; try lia;
    rewrite <- (Zplus_mod_idemp_l w 1 16), (Z.mod_small (w mod 16 + 1)); lia.
Qed.

Lemma missing_bound (w : Z) : 0 <= missing w <= 15.
Proof. unfold missing. pose proof (Z.mod_pos_bound (- w) 16 ltac:(lia)). lia. Qed.

Lemma missing_multiple (w : Z) : Z.rem (w + missing w) 16 = 0.
Proof.
apply rem_16_mod. unfold missing.
rewrite Zplus_mod_idemp_r. replace (w + - w) with 0 by lia. reflexivity.
Qed.

Lemma widenStep_edges (vp : VideoParameters) :
  (Z.rem (activeWidth vp) 2 = 0 ->
   widenStep vp = set_activeVideoEnd vp (activeVideoEnd vp + 1))
  /\ (Z.rem (activeWidth vp) 2 <> 0 ->
      widenStep vp = set_activeVideoStart vp (activeVideoStart vp - 1)).
Proof.
unfold widenStep, activeWidth.
destruct (Z.eqb_spec (Z.rem (activeVideoEnd vp - activeVideoStart vp) 2) 0);
  split; intros; congruence.
Qed.

(** C10.  The loop of [configure] that widens the active band ends for
    every geometry.  It runs [n <= 15] turns: [n] is the number of pixels
    missing to the next multiple of 16, the width is no multiple of 16
    before any of these turns, and each turn adds exactly one pixel, on the
    right when the width is even and on the left when it is odd.  The loop
    leaves the least multiple of 16 that is not below the initial width. *)
Theorem widen_terminates (vp : VideoParameters) :
  exists n : nat,
    (n <= 15)%nat
    /\ widen vp = Nat.iter n widenStep vp
    /\ (forall k, (k < n)%nat ->
          Z.rem (activeWidth (Nat.iter k widenStep vp)) 16 <> 0
          /\ activeWidth (Nat.iter (S k) widenStep vp)
             = activeWidth (Nat.iter k widenStep vp) + 1)
    /\ (forall v, (Z.rem (activeWidth v) 2 = 0 ->
                   widenStep v = set_activeVideoEnd v (activeVideoEnd v + 1))
                  /\ (Z.rem (activeWidth v) 2 <> 0 ->
                      widenStep v = set_activeVideoStart v (activeVideoStart v - 1)))
    /\ Z.rem (activeWidth (widen vp)) 16 = 0
    /\ activeWidth (widen vp) = activeWidth vp + Z.of_nat n
    /\ activeWidth vp <= activeWidth (widen vp) < activeWidth vp + 16.
Proof.
exists (Z.to_nat (missing (activeWidth vp))).
pose proof (missing_bound (activeWidth vp)) as B.
assert (G : widen vp = Nat.iter (Z.to_nat (missing (activeWidth vp))) widenStep vp
            /\ forall k, (k < Z.to_nat (missing (activeWidth vp)))%nat ->
                 Z.rem (activeWidth (Nat.iter k widenStep vp)) 16 <> 0).
{ clear B. funelim (widen vp);
    change (activeVideoEnd vp - activeVideoStart vp) with (activeWidth vp) in *.
  - match goal with E : Z.rem _ 16 = 0 |- _ =>
      rewrite (missing_zero _ E) end.
    simpl. split; [reflexivity | intros k Hk; lia].
  - match goal with IH : _ /\ _ |- _ => destruct IH as [IH1 IH2] end.
    assert (N : Z.rem (activeWidth vp) 16 <> 0) by assumption.
    rewrite (missing_step _ N).
    rewrite widenStep_width in IH1, IH2.
    pose proof (missing_bound (activeWidth vp + 1)).
    rewrite Z2Nat.inj_add, Nat.add_1_r by lia.
    split.
    + rewrite Nat.iter_succ_r. exact IH1.
    + intros [|k] Hk; [exact N|].
      rewrite Nat.iter_succ_r. apply IH2. lia. }
destruct G as [G1 G2].
assert (W : forall n v, activeWidth (Nat.iter n widenStep v) = activeWidth v + Z.of_nat n).
{ induction n as [|n IH]; intros v; [simpl; lia|].
  rewrite Nat.iter_succ, widenStep_width, IH. lia. }
assert (E : activeWidth (widen vp) = activeWidth vp + missing (activeWidth vp))
  by (rewrite G1, W, Z2Nat.id; lia).
split; [lia|]. split; [exact G1|]. split.
{ intros k Hk. split; [apply G2, Hk|]. rewrite Nat.iter_succ. apply widenStep_width. }
split; [exact widenStep_edges|].
split; [rewrite E; apply missing_multiple|].
split; [rewrite E, Z2Nat.id; lia | lia].
Qed.

(** C8.  For a geometry whose active width is already a multiple of 16,
    [configure] keeps the active columns as they are and leaves the active
    lines at 44 to 620, an even count that needs no adjustment: a PAL
    geometry is stored unchanged, any other is refused with the
    configuration untouched.  Configuring again with the stored geometry
    changes nothing. *)
Theorem configure_conformant (config : Configuration) (vp : VideoParameters) :
  Z.rem (activeVideoEnd vp - activeVideoStart vp) 16 = 0 ->
  (isSourcePal vp = true ->
   configure config vp
   = (true, mkConfiguration (blackAndWhite config) vp (fieldHeight vp * 2 - 1) 44 620)
   /\ configure (snd (configure config vp)) (videoParameters (snd (configure config vp)))
      = configure config vp)
  /\ (isSourcePal vp = false -> configure config vp = (false, config)).
Proof.
intros Hw.
assert (Wid : widen vp = vp).
{ funelim (widen vp); [reflexivity | contradiction]. }
assert (C : isSourcePal vp = true ->
            configure config vp
            = (true, mkConfiguration (blackAndWhite config) vp (fieldHeight vp * 2 - 1) 44 620)).
{ intros Hp. unfold configure. rewrite Hp, Wid. reflexivity. }
split.
- intros Hp. split; [apply C, Hp|].
  rewrite (C Hp). cbn [snd videoParameters].
  unfold configure. rewrite Hp, Wid. reflexivity.
- intros Hp. unfold configure. rewrite Hp. reflexivity.
Qed.

Lemma configure_conformant_witness :
  configure (mkConfiguration false (mkVideoParameters false 0 0 0 0 0) 0 0 0)
            (mkVideoParameters true 98 185 1113 1135 313)
  = (true, mkConfiguration false (mkVideoParameters true 98 185 1113 1135 313) 625 44 620).
Proof.
destruct (configure_conformant
            (mkConfiguration false (mkVideoParameters false 0 0 0 0 0) 0 0 0)
            (mkVideoParameters true 98 185 1113 1135 313)) as [[H _] _];
  [reflexivity | reflexivity |].
exact H.
Defined.

(** *** The cropped frame ([PalThread::run]) *)

(** [len] bytes of [a] from position [pos] on. *)
Definition slice (a : list byte) (pos len : Z) : list byte :=
  firstn (Z.to_nat len) (skipn (Z.to_nat pos) a).

(** The lines of the output frame the specification describes: blank
    lines up to a height of 576, then the active columns of every scan
    line of the active band. *)
Definition croppedLines (config : Configuration) (outputData : list byte)
    : list (list byte) :=
  let vp := videoParameters config in
  let lineBytes := (activeVideoEnd vp - activeVideoStart vp) * 6 in
  repeat (repeat x00 (Z.to_nat lineBytes))
         (Z.to_nat (576 - (lastActiveScanLine config - firstActiveScanLine config)))
  ++ map (fun y => slice outputData
                         (y * fieldWidth vp * 6 + activeVideoStart vp * 6) lineBytes)
         (range (firstActiveScanLine config) (lastActiveScanLine config)).

Lemma fold_left_append {A B : Type} (f : B -> list A) (l : list B) : forall acc,
  fold_left (fun rgb y => rgb ++ f y) l acc = acc ++ concat (map f l).
Proof.
induction l as [|b l IH]; intros acc; simpl; [symmetry; apply app_nil_r|].
rewrite IH, app_assoc. reflexivity.
Qed.

Lemma map_constant {A B : Type} (c : B) (l : list A) :
  map (fun _ => c) l = repeat c (length l).
Proof. induction l; simpl; congruence. Qed.

Lemma range_In (a b y : Z) : In y (range a b) -> a <= y < b.
Proof.
unfold range. rewrite in_map_iff. intros (k & <- & Hk).
apply in_seq in Hk. lia.
Qed.

Lemma range_length (a b : Z) : length (range a b) = Z.to_nat (b - a).
Proof. unfold range. rewrite length_map, length_seq. reflexivity. Qed.

Lemma upto_length (n : Z) : length (upto n) = Z.to_nat n.
Proof. unfold upto. rewrite length_map, length_seq. reflexivity. Qed.

(** Inside the array, [mid] is the plain slice. *)
Lemma mid_inside (a : list byte) (pos len : Z) :
  0 <= pos -> 0 <= len -> pos + len <= Z.of_nat (length a) ->
  mid a pos len = slice a pos len /\ Z.of_nat (length (mid a pos len)) = len.
Proof.
intros Hp Hl Hs. unfold mid, slice.
destruct (Z.ltb_spec (Z.of_nat (length a)) pos); [lia|].
destruct (Z.ltb_spec pos 0); [lia|].
destruct (Z.ltb_spec len 0); [lia|].
destruct (Z.ltb_spec (Z.of_nat (length a) - pos) len); [lia|].
simpl. split; [reflexivity|].
rewrite length_firstn, length_skipn. lia.
Qed.

(** C9.  For a decoded frame that holds the whole picture (a buffer of
    [fieldWidth * frameHeight] pixels of 6 bytes) and a geometry whose
    active window lies inside it, the output of the worker is 576 lines of
    exactly the active width: [576 - (lastActiveScanLine -
    firstActiveScanLine)] lines of zeros, then, line by line, the active
    columns of the scan lines of the active band. *)
Theorem crop_576_lines (config : Configuration) (outputData : list byte) :
  let vp := videoParameters config in
  let lines := croppedLines config outputData in
  0 <= activeVideoStart vp <= activeVideoEnd vp ->
  activeVideoEnd vp <= fieldWidth vp ->
  0 <= firstActiveScanLine config <= lastActiveScanLine config ->
  lastActiveScanLine config - firstActiveScanLine config <= 576 ->
  lastActiveScanLine config <= frameHeight config ->
  Z.of_nat (length outputData) = fieldWidth vp * frameHeight config * 6 ->
  crop config outputData = concat lines
  /\ length lines = 576%nat
  /\ Forall (fun line => Z.of_nat (length line)
                         = (activeVideoEnd vp - activeVideoStart vp) * 6) lines.
Proof.
intros vp lines Hcols Hend Hrows Hband Hlast Hsize.
assert (Hmid : forall y, In y (range (firstActiveScanLine config) (lastActiveScanLine config)) ->
          mid outputData (y * fieldWidth vp * 6 + activeVideoStart vp * 6)
                         ((activeVideoEnd vp - activeVideoStart vp) * 6)
          = slice outputData (y * fieldWidth vp * 6 + activeVideoStart vp * 6)
                             ((activeVideoEnd vp - activeVideoStart vp) * 6)
          /\ Z.of_nat (length (mid outputData
                                   (y * fieldWidth vp * 6 + activeVideoStart vp * 6)
                                   ((activeVideoEnd vp - activeVideoStart vp) * 6)))
             = (activeVideoEnd vp - activeVideoStart vp) * 6).
{ intros y Hy. apply range_In in Hy. apply mid_inside; [nia | nia |].
  rewrite Hsize.
  assert ((y + 1) * fieldWidth vp <= frameHeight config * fieldWidth vp) by nia.
  nia. }
split; [|split].
- unfold crop, lines, croppedLines. fold vp.
  rewrite !fold_left_append, concat_app. simpl app. f_equal.
  + rewrite map_constant, upto_length. reflexivity.
  + f_equal. apply map_ext_in. intros y Hy. apply Hmid, Hy.
- unfold lines, croppedLines. rewrite length_app, repeat_length, length_map, range_length.
  lia.
- unfold lines, croppedLines. fold vp. apply Forall_app. split.
  + apply Forall_forall. intros line Hl. apply repeat_spec in Hl. subst line.
    rewrite repeat_length. lia.
  + apply Forall_forall. intros line Hl. apply in_map_iff in Hl as (y & <- & Hy).
    destruct (Hmid y Hy) as [<- Hlen]. exact Hlen.
Qed.

Lemma crop_576_lines_witness :
  crop (mkConfiguration false (mkVideoParameters true 0 0 1 2 2) 3 1 3) (repeat x01 36)
  = concat (croppedLines (mkConfiguration false (mkVideoParameters true 0 0 1 2 2) 3 1 3)
                         (repeat x01 36))
  /\ length (croppedLines (mkConfiguration false (mkVideoParameters true 0 0 1 2 2) 3 1 3)
                          (repeat x01 36)) = 576%nat.
Proof.
destruct (crop_576_lines (mkConfiguration false (mkVideoParameters true 0 0 1 2 2) 3 1 3)
                         (repeat x01 36)) as (H1 & H2 & _);
  try (simpl; lia); try reflexivity.
split; [exact H1 | exact H2].
Defined.

End PalDecoderFacts.

(* ===================================================================== *)
(** * Part III: further properties of the two files *)
(* ===================================================================== *)

(** ** The stacking engine, continued *)

Module StackerCoverage.

Import LdDecodeMetaData Stacker OrderFacts StackerFacts.

(** *** Dropout tables *)

Lemma isDropout_app (d d' : DropOuts.t) (x y : Z) :
  isDropout (d ++ d') x y = isDropout d x y || isDropout d' x y.
Proof.
induction d as [|e d IH]; simpl; [reflexivity|].
destruct (DropOuts.fieldLine e - 1 =? y); [|exact IH].
destruct ((DropOuts.startx e <=? x) && (x <=? DropOuts.endx e)); [reflexivity | exact IH].
Qed.

(** X1.  Appending an interval to a dropout table adds exactly its own
    pixels to what [isDropout] reports: a pixel is a dropout of the
    extended table when it was one already, or when it lies on line
    [line - 1] (0-based) between the two columns, ends included.  An
    interval whose end is left of its start adds nothing. *)
Theorem isDropout_append (d : DropOuts.t) (sx ex line x y : Z) :
  isDropout (DropOuts.append d sx ex line) x y
  = isDropout d x y || ((line - 1 =? y) && (sx <=? x) && (x <=? ex))
  /\ (ex < sx -> isDropout (DropOuts.append d sx ex line) x y = isDropout d x y).
Proof.
assert (E : isDropout (DropOuts.append d sx ex line) x y
            = isDropout d x y || ((line - 1 =? y) && (sx <=? x) && (x <=? ex))).
{ unfold DropOuts.append. rewrite isDropout_app. f_equal. simpl.
  destruct (line - 1 =? y); [|reflexivity].
  destruct (sx <=? x); destruct (x <=? ex); reflexivity. }
split; [exact E|].
intros H. rewrite E.
destruct (Z.leb_spec sx x); destruct (Z.leb_spec x ex); try lia;
  rewrite ?andb_false_r, ?orb_false_r; reflexivity.
Qed.

Section Engine.
Context {selection : NthElement}.
Variable concatenate : DropOuts.t -> DropOuts.t.

(** *** The median between the extremes *)

Lemma median_between (lo hi : Z) (elements : list Z) :
  elements <> [] -> Forall quint16 elements ->
  Forall (fun v => lo <= v <= hi) elements ->
  lo <= median elements <= hi.
Proof.
intros Hne Hr Hb.
assert (Hn : (0 < length elements)%nat) by (destruct elements; simpl; [congruence | lia]).
destruct (Nat.mod_bound_pos (length elements) 2 ltac:(lia) ltac:(lia)) as [_ Hm].
rewrite Forall_forall in Hb.
destruct (length elements mod 2)%nat as [|[|k]] eqn:E; [| |lia].
- rewrite median_even by assumption.
  set (n := length elements) in *.
  assert (Hhalf : (n / 2 < n)%nat) by (apply Nat.div_lt; lia).
  assert (Hlow : ((n - 1) / 2 < n)%nat) by (apply Nat.Div0.div_lt_upper_bound; lia).
  pose proof (Hb _ (order_stat_In ((n - 1) / 2) elements Hlow)) as B1.
  assert (B2 : lo <= nth (n / 2) (nth_element ((n - 1) / 2) (nth_element (n / 2) elements)) 0
               <= hi).
  { apply Hb. eapply Permutation_in; [symmetry; apply (nth_element_perm (n / 2))|].
    apply nth_element_In. rewrite nth_element_length. lia. }
  split; [apply Z.div_le_lower_bound; lia | apply Z.div_le_upper_bound; lia].
- rewrite median_odd by assumption.
  apply Hb, order_stat_In, Nat.div_lt; lia.
Qed.

(** X2.  For a set of odd length the median does not depend on the order
    of the values nor on how [std::nth_element] arranges the rest of the
    range: any two selections that meet the contract give the same result
    on any two arrangements of the same values. *)
Theorem median_odd_stable (other : NthElement) (elements elements' : list Z) :
  (length elements mod 2 = 1)%nat ->
  Permutation elements elements' ->
  median (selection := selection) elements = median (selection := other) elements'.
Proof.
intros Hodd P.
rewrite (median_odd (selection := selection)) by exact Hodd.
rewrite (median_odd (selection := other))
  by (rewrite <- (Permutation_length P); exact Hodd).
unfold order_stat. rewrite (sort_of_perm _ _ P), (Permutation_length P). reflexivity.
Qed.

(** *** Writing into a vector *)

Lemma update_length {A : Type} (n : nat) (x : A) (l : list A) :
  length (update n x l) = length l.
Proof.
revert n. induction l as [|h t IH]; intros [|n]; simpl; try reflexivity.
rewrite IH. reflexivity.
Qed.

Lemma update_nth_same {A : Type} (n : nat) (x d : A) (l : list A) :
  (n < length l)%nat -> nth n (update n x l) d = x.
Proof.
revert n. induction l as [|h t IH]; intros [|n] H; simpl in *; try lia; [reflexivity|].
apply IH. lia.
Qed.

Lemma update_nth_other {A : Type} (n m : nat) (x d : A) (l : list A) :
  n <> m -> nth m (update n x l) d = nth m l d.
Proof.
revert n m. induction l as [|h t IH]; intros [|n] [|m] H; simpl; try reflexivity; try lia.
apply IH. lia.
Qed.

Lemma update_Forall {A : Type} (P : A -> Prop) (n : nat) (x : A) (l : list A) :
  Forall P l -> P x -> Forall P (update n x l).
Proof.
intros Hl Hx. revert n. induction Hl as [|h t Hh Ht IH]; intros [|n]; simpl;
  constructor; auto.
Qed.

Lemma set_at_nat {A : Type} (l : list A) (k : nat) (x : A) :
  set_at l (Z.of_nat k) x = update k x l.
Proof.
unfold set_at. destruct (Z.ltb_spec (Z.of_nat k) 0); [lia|]. rewrite Nat2Z.id. reflexivity.
Qed.

Lemma set_at_length {A : Type} (l : list A) (i : Z) (x : A) :
  length (set_at l i x) = length l.
Proof. unfold set_at. destruct (i <? 0); [reflexivity | apply update_length]. Qed.

Lemma set_at_Forall {A : Type} (P : A -> Prop) (l : list A) (i : Z) (x : A) :
  Forall P l -> P x -> Forall P (set_at l i x).
Proof.
intros Hl Hx. unfold set_at. destruct (i <? 0); [exact Hl | apply update_Forall; assumption].
Qed.

(** *** The order of the scan *)

Lemma upto_length_nat (n : Z) : length (upto n) = Z.to_nat n.
Proof. unfold upto. rewrite length_map, length_seq. reflexivity. Qed.

(** The pixels of [rows] lines of [width] columns from line [first] on,
    line after line: the [k]-th of them is written at index
    [width * first + k]. *)
Lemma rows_nth (width : nat) : forall (rows first k : nat) (x y : Z),
  nth_error
    (flat_map (fun y => map (fun x => (x, y)) (map Z.of_nat (seq 0 width)))
              (map Z.of_nat (seq first rows))) k = Some (x, y) ->
  Z.of_nat width * y + x = Z.of_nat (width * first + k)
  /\ 0 <= x < Z.of_nat width
  /\ Z.of_nat first <= y < Z.of_nat (first + rows).
Proof.
induction rows as [|rows IH]; intros first k x y H; simpl in H.
- destruct k; discriminate.
- destruct (Nat.lt_ge_cases k width) as [Lt|Ge].
  + rewrite nth_error_app1 in H by (rewrite !length_map, length_seq; exact Lt).
    rewrite !nth_error_map in H.
    rewrite (nth_error_nth' _ 0%nat) in H by (rewrite length_seq; exact Lt).
    rewrite seq_nth in H by exact Lt. simpl in H. inversion H; subst. lia.
  + rewrite nth_error_app2 in H by (rewrite !length_map, length_seq; exact Ge).
    rewrite !length_map, length_seq in H.
    destruct (IH (S first) (k - width)%nat x y H) as (E & Hx & Hy).
    split; [|split]; [|exact Hx | lia].
    rewrite E. f_equal. nia.
Qed.

Section Field.
Variable inputFields : list (list Z).
Variable videoParameters : VideoParameters.
Variable fieldMetadata : list Field.
Variable availableSourcesForFrame : list Z.
Variable noDiffDod : bool.

Abbreviation pixel_values := (pixelValues inputFields videoParameters fieldMetadata
                                      availableSourcesForFrame noDiffDod).
Abbreviation stack_pixel := (stackPixel inputFields videoParameters fieldMetadata
                                    availableSourcesForFrame noDiffDod).
Abbreviation pixel_index := (pixelIndex videoParameters).
Abbreviation the_pixels := (pixels videoParameters).
Abbreviation scan := (scanned inputFields videoParameters fieldMetadata
                              availableSourcesForFrame noDiffDod).

Lemma pixels_length :
  length the_pixels
  = (Z.to_nat (fieldWidth videoParameters) * Z.to_nat (fieldHeight videoParameters))%nat.
Proof.
unfold pixels.
rewrite <- (upto_length_nat (fieldWidth videoParameters)),
        <- (upto_length_nat (fieldHeight videoParameters)).
induction (upto (fieldHeight videoParameters)) as [|r rows IH]; simpl; [lia|].
rewrite length_app, length_map, IH. lia.
Qed.

(** The [k]-th pixel of the scan is written at index [k] of the output
    field. *)
Lemma pixels_nth (k : nat) (x y : Z) :
  nth_error the_pixels k = Some (x, y) ->
  pixel_index x y = Z.of_nat k
  /\ 0 <= x < fieldWidth videoParameters
  /\ 0 <= y < fieldHeight videoParameters.
Proof.
intros H. unfold pixels, upto in H.
destruct (rows_nth _ _ 0%nat k x y H) as (E & Hx & Hy).
unfold Stacker.pixelIndex.
assert (0 < fieldWidth videoParameters) by lia.
assert (0 < fieldHeight videoParameters) by lia.
rewrite Z2Nat.id in E, Hx by lia. simpl in Hy. rewrite Z2Nat.id in Hy by lia.
split; [|split; assumption]. rewrite E. f_equal. lia.
Qed.

Lemma pixels_In (x y : Z) :
  In (x, y) the_pixels
  <-> 0 <= x < fieldWidth videoParameters /\ 0 <= y < fieldHeight videoParameters.
Proof.
unfold pixels, upto. rewrite in_flat_map. split.
- intros (r & Hr & Hc). rewrite in_map_iff in Hr, Hc.
  destruct Hr as (j & <- & Hj). destruct Hc as (c & Hc & Hi).
  rewrite in_map_iff in Hi. destruct Hi as (i & <- & Hi).
  inversion Hc; subst. apply in_seq in Hj, Hi. lia.
- intros [Hx Hy]. exists y. split.
  + apply in_map_iff. exists (Z.to_nat y). split; [lia | apply in_seq; lia].
  + apply in_map_iff. exists x. split; [reflexivity|].
    apply in_map_iff. exists (Z.to_nat x). split; [lia | apply in_seq; lia].
Qed.

Lemma scanned_past (k : nat) (out : list Z) (dos : DropOuts.t) :
  nth_error the_pixels k = None -> scan (S k) out dos = scan k out dos.
Proof.
intros H. apply nth_error_None in H. unfold scanned.
rewrite !firstn_all2 by lia. reflexivity.
Qed.

(** What holds at the start of the scan and is kept by every pixel holds
    all along. *)
Lemma scanned_invariant (P : Scan -> Prop) (out : list Z) (dos : DropOuts.t) :
  P (start out dos) ->
  (forall k x y, nth_error the_pixels k = Some (x, y) ->
                 P (scan k out dos) -> P (stack_pixel (scan k out dos) x y)) ->
  forall k, P (scan k out dos).
Proof.
intros H0 Hstep. induction k as [|k IH]; [exact H0|].
destruct (nth_error the_pixels k) as [[x y]|] eqn:E.
- rewrite (scanned_step _ _ _ _ _ k x y) by exact E. apply (Hstep k x y E IH).
- rewrite scanned_past by exact E. exact IH.
Qed.

(** Every branch of the fusion stores the value it remembers. *)
Lemma stackPixel_output (st : Scan) (x y : Z) :
  outputField (stack_pixel st x y)
  = set_at (outputField st) (pixel_index x y) (prevGoodValue (stack_pixel st x y)).
Proof.
rewrite stackPixel_values. unfold stackValues.
repeat match goal with |- context [if ?c then _ else _] => destruct c end; reflexivity.
Qed.

Lemma scanned_index (k : nat) (x y : Z) :
  nth_error the_pixels k = Some (x, y) ->
  pixel_index x y = Z.of_nat k /\ (k < length the_pixels)%nat.
Proof.
intros H. split; [apply (pixels_nth k x y H)|].
apply nth_error_Some. rewrite H. discriminate.
Qed.

(** *** The output field keeps its size *)

(** X3.  [stackField] never resizes the output field it is given, and it
    leaves every sample beyond the [fieldWidth * fieldHeight] pixels of the
    field as it was; with no pixel to scan (a width or a height of zero or
    less) the whole field is left as it was. *)
Theorem stackField_keeps_size (out : list Z) (dos : DropOuts.t) :
  let result := outputField (stackField concatenate inputFields videoParameters
                               fieldMetadata availableSourcesForFrame noDiffDod out dos) in
  length result = length out
  /\ (forall j d,
        (Z.to_nat (fieldWidth videoParameters) * Z.to_nat (fieldHeight videoParameters)
         <= j)%nat ->
        nth j result d = nth j out d)
  /\ (fieldWidth videoParameters <= 0 \/ fieldHeight videoParameters <= 0 -> result = out).
Proof.
intros result.
assert (E : result = outputField (scan (length the_pixels) out dos)).
{ unfold result. rewrite stackField_scanned. cbv zeta.
  destruct (DropOuts.size _ =? 0); reflexivity. }
assert (I : forall k, length (outputField (scan k out dos)) = length out
                      /\ forall j d, (length the_pixels <= j)%nat ->
                           nth j (outputField (scan k out dos)) d = nth j out d).
{ apply (scanned_invariant
           (fun st => length (outputField st) = length out
                      /\ forall j d, (length the_pixels <= j)%nat ->
                           nth j (outputField st) d = nth j out d)).
  - split; [reflexivity | intros; reflexivity].
  - intros k x y Hk [IH1 IH2]. destruct (scanned_index k x y Hk) as [Hi Hlt].
    rewrite stackPixel_output, Hi, set_at_nat. split.
    + rewrite update_length. exact IH1.
    + intros j d Hj. rewrite update_nth_other by lia. apply IH2, Hj. }
rewrite E. destruct (I (length the_pixels)) as [I1 I2].
split; [exact I1|]. split.
- intros j d Hj. apply I2. rewrite pixels_length. exact Hj.
- intros Hz. apply (nth_ext _ _ 0 0); [exact I1|].
  intros j _. apply I2. rewrite pixels_length.
  destruct Hz as [Hz|Hz]; [replace (Z.to_nat (fieldWidth videoParameters)) with 0%nat by lia
                          | replace (Z.to_nat (fieldHeight videoParameters)) with 0%nat by lia];
    lia.
Qed.

(** *** The fused value between the extremes *)

Lemma stackValues_between (lo hi : Z) (st : Scan) (x y : Z) (values : list Z) :
  values <> [] -> Forall quint16 values ->
  Forall (fun v => lo <= v <= hi) values ->
  lo <= prevGoodValue (stackValues videoParameters st x y values) <= hi.
Proof.
intros Hne Hr Hb. unfold stackValues.
destruct (Nat.ltb_spec 2 (length values)) as [H2|H2]; cbn [prevGoodValue].
- apply median_between; assumption.
- destruct values as [|a [|b [|c rest]]]; simpl in H2; try lia; [congruence | |];
    cbn [length Nat.eqb nth prevGoodValue].
  + inversion Hb; subst. assumption.
  + inversion Hb as [|? ? Ba Hb']; subst. inversion Hb' as [|? ? Bb _]; subst.
    inversion Hr as [|? ? Ra Hr']; subst. inversion Hr' as [|? ? Rb _]; subst.
    unfold quint16 in *.
    rewrite DoubleFacts.add_exact, DoubleFacts.halve_sum by lia.
    split; [apply Z.div_le_lower_bound; lia | apply Z.div_le_upper_bound; lia].
Qed.

(** X4.  At a pixel whose value set is not empty, the sample stored
    lies between the least and the greatest value of the set, whatever
    branch of the fusion applies and whatever [std::nth_element] does
    within its contract; in particular sources that agree on a value
    yield that value. *)
Theorem fused_between (lo hi : Z) (st : Scan) (x y : Z) (values : list Z) :
  fst (pixel_values x y) = values ->
  values <> [] ->
  Forall quint16 values ->
  Forall (fun v => lo <= v <= hi) values ->
  lo <= prevGoodValue (stack_pixel st x y) <= hi
  /\ outputField (stack_pixel st x y)
     = set_at (outputField st) (pixel_index x y) (prevGoodValue (stack_pixel st x y))
  /\ (lo = hi -> prevGoodValue (stack_pixel st x y) = lo).
Proof.
intros Hv Hne Hr Hb.
assert (B : lo <= prevGoodValue (stack_pixel st x y) <= hi)
  by (rewrite stackPixel_values, Hv; apply stackValues_between; assumption).
split; [exact B|]. split; [apply stackPixel_output | lia].
Qed.

(** *** Samples stay 16-bit *)

Lemma nth_Forall {A : Type} (P : A -> Prop) (l : list A) (n : nat) (d : A) :
  Forall P l -> P d -> P (nth n l d).
Proof.
intros Hl Hd. destruct (nth_in_or_default n l d) as [Hin | ->]; [|exact Hd].
rewrite Forall_forall in Hl. apply Hl, Hin.
Qed.

Lemma at_Forall {A : Type} (P : A -> Prop) (l : list A) (i : Z) (d : A) :
  Forall P l -> P d -> P (at_ d l i).
Proof.
intros Hl Hd. unfold at_. destruct (i <? 0); [exact Hd | apply nth_Forall; assumption].
Qed.

Lemma diffDod_Forall (P : Z -> Prop) (l : list Z) (vp : VideoParameters) (xPos : Z) :
  Forall P l -> Forall P (fst (diffDod l vp xPos)).
Proof.
intros H. unfold diffDod.
destruct (length l <? 3)%nat; [constructor|].
destruct (xPos <? colourBurstStart vp); [constructor|].
cbn [fst]. apply Forall_forall. intros v Hv. apply filter_In in Hv as [Hv _].
rewrite Forall_forall in H. apply H, Hv.
Qed.

Section Samples.
Hypothesis samples_16_bit : Forall (Forall quint16) inputFields.

Lemma sample_quint16 (s x y : Z) : quint16 (sample inputFields videoParameters s x y).
Proof.
unfold sample. apply at_Forall; [|unfold quint16; lia].
apply (at_Forall (Forall quint16)); [exact samples_16_bit | constructor].
Qed.

Lemma validValues_quint16 (sources : list Z) (x y : Z) :
  Forall quint16 (validValues inputFields videoParameters fieldMetadata sources x y).
Proof.
induction sources as [|s rest IH]; simpl; [constructor|].
destruct (negb _); [constructor; [apply sample_quint16 | exact IH] | exact IH].
Qed.

Lemma nonZeroValues_quint16 (sources : list Z) (x y : Z) :
  Forall quint16 (nonZeroValues inputFields videoParameters sources x y).
Proof.
induction sources as [|s rest IH]; simpl; [constructor|].
destruct (0 <? _); [constructor; [apply sample_quint16 | exact IH] | exact IH].
Qed.

Lemma pixelValues_quint16 (x y : Z) : Forall quint16 (fst (pixel_values x y)).
Proof.
unfold Stacker.pixelValues.
destruct (_ && _ && _);
  [apply diffDod_Forall, nonZeroValues_quint16 | apply validValues_quint16].
Qed.

Lemma stackPixel_quint16 (st : Scan) (x y : Z) :
  quint16 (prevGoodValue st) -> quint16 (prevGoodValue (stack_pixel st x y)).
Proof.
intros Hp. rewrite stackPixel_values.
destruct (fst (pixel_values x y)) as [|v values] eqn:E.
- exact Hp.
- unfold quint16.
  assert (0 <= prevGoodValue
                 (stackValues videoParameters
                    (mkScan (prevGoodValue st) (outputField st) (dropOuts st)
                            (debug st ++ snd (pixel_values x y))) x y (v :: values))
          <= 65535); [|lia].
  apply stackValues_between; [discriminate | rewrite <- E; apply pixelValues_quint16 |].
  eapply Forall_impl; [|rewrite <- E; apply pixelValues_quint16].
  unfold quint16. intros; lia.
Qed.

End Samples.

(** X5.  When every sample of every source is a 16-bit value and the
    output field holds 16-bit values to start with, every sample of the
    field [stackField] leaves is a 16-bit value: no fusion branch, rescue
    included, leaves the range [0, 65535]. *)
Theorem stackField_quint16 (out : list Z) (dos : DropOuts.t) :
  Forall (Forall quint16) inputFields ->
  Forall quint16 out ->
  Forall quint16 (outputField (stackField concatenate inputFields videoParameters
                                 fieldMetadata availableSourcesForFrame noDiffDod out dos)).
Proof.
intros Hin Hout.
assert (I : forall k, quint16 (prevGoodValue (scan k out dos))
                      /\ Forall quint16 (outputField (scan k out dos))).
{ apply (scanned_invariant
           (fun st => quint16 (prevGoodValue st) /\ Forall quint16 (outputField st))).
  - split; [unfold quint16; simpl; lia | exact Hout].
  - intros k x y _ [IH1 IH2].
    pose proof (stackPixel_quint16 Hin _ x y IH1) as Q.
    split; [exact Q|]. rewrite stackPixel_output. apply set_at_Forall; assumption. }
rewrite stackField_scanned. cbv zeta.
destruct (DropOuts.size _ =? 0); apply I.
Qed.

(** *** What a sample of the output field is *)

Lemma scanned_length (k : nat) (out : list Z) (dos : DropOuts.t) :
  length (outputField (scan k out dos)) = length out.
Proof.
apply (scanned_invariant (fun st => length (outputField st) = length out));
  [reflexivity|].
intros j x y _ IH. rewrite stackPixel_output, set_at_length. exact IH.
Qed.

(** Once the [k]-th pixel is done, the sample at index [k] is the value
    remembered after that pixel, and it is not written again. *)
Lemma scanned_sample (k : nat) (out : list Z) (dos : DropOuts.t) :
  (k < length the_pixels)%nat -> (k < length out)%nat ->
  forall n, (k < n)%nat ->
  nth k (outputField (scan n out dos)) 0 = prevGoodValue (scan (S k) out dos).
Proof.
intros Hk Hout. induction n as [|n IH]; intros Hn; [lia|].
destruct (Nat.eq_dec k n) as [->|Hne].
- destruct (nth_error the_pixels n) as [[x y]|] eqn:E;
    [|apply nth_error_None in E; lia].
  rewrite (scanned_step _ _ _ _ _ n x y) by exact E.
  destruct (scanned_index n x y E) as [Hi _].
  rewrite stackPixel_output, Hi, set_at_nat.
  apply update_nth_same. rewrite scanned_length. exact Hout.
- destruct (nth_error the_pixels n) as [[x y]|] eqn:E.
  + rewrite (scanned_step _ _ _ _ _ n x y) by exact E.
    destruct (scanned_index n x y E) as [Hi _].
    rewrite stackPixel_output, Hi, set_at_nat, update_nth_other by lia.
    apply IH. lia.
  + rewrite scanned_past by exact E. apply IH. lia.
Qed.

Lemma stackField_output (out : list Z) (dos : DropOuts.t) :
  outputField (stackField concatenate inputFields videoParameters fieldMetadata
                          availableSourcesForFrame noDiffDod out dos)
  = outputField (scan (length the_pixels) out dos).
Proof.
rewrite stackField_scanned. cbv zeta. destruct (DropOuts.size _ =? 0); reflexivity.
Qed.

(** X6.  In the field [stackField] leaves, a pixel whose value set is
    empty repeats the output sample just before it in scan order, which at
    the first column of a line is the last sample of the line above; the
    very first pixel of the field gets 0. *)
Theorem empty_pixel_repeats (k : nat) (x y : Z) (out : list Z) (dos : DropOuts.t) :
  nth_error the_pixels k = Some (x, y) ->
  (length the_pixels <= length out)%nat ->
  fst (pixel_values x y) = [] ->
  let result := outputField (stackField concatenate inputFields videoParameters
                               fieldMetadata availableSourcesForFrame noDiffDod out dos) in
  nth k result 0 = match k with O => 0 | S j => nth j result 0 end.
Proof.
intros Hk Hlen Hv result. unfold result. rewrite stackField_output.
destruct (scanned_index k x y Hk) as [_ Hlt].
rewrite (scanned_sample k out dos) by lia.
rewrite (scanned_step _ _ _ _ _ k x y) by exact Hk.
assert (E : prevGoodValue (stack_pixel (scan k out dos) x y)
            = prevGoodValue (scan k out dos)).
{ rewrite stackPixel_values, Hv. reflexivity. }
rewrite E. destruct k as [|j]; [reflexivity|].
symmetry. apply scanned_sample; lia.
Qed.

(** *** One clean source *)

(** X7.  Stacking a single available source that has no dropout on any
    pixel of the field copies it: the output field is the field of that
    source, sample for sample, and no dropout is recorded. *)
Theorem single_source_copied (s : Z) (field out : list Z) :
  availableSourcesForFrame = [s] ->
  at_ [] inputFields s = field ->
  (forall x y, isDropout (LdDecodeMetaData.dropOuts (at_ (mkField []) fieldMetadata s)) x y
               = false) ->
  length field = length the_pixels ->
  length out = length the_pixels ->
  outputField (stackField concatenate inputFields videoParameters fieldMetadata
                          availableSourcesForFrame noDiffDod out []) = field
  /\ dropOuts (stackField concatenate inputFields videoParameters fieldMetadata
                          availableSourcesForFrame noDiffDod out []) = [].
Proof.
intros Hs Hf Hclean Hfl Hol.
assert (V : forall x y, pixel_values x y
                        = ([sample inputFields videoParameters s x y], [])).
{ intros x y. unfold Stacker.pixelValues. rewrite Hs. simpl.
  rewrite Hclean. reflexivity. }
assert (S1 : forall st k x y, nth_error the_pixels k = Some (x, y) ->
               prevGoodValue (stack_pixel st x y) = nth k field 0
               /\ dropOuts (stack_pixel st x y) = dropOuts st).
{ intros st k x y Hk. rewrite stackPixel_values, V. unfold stackValues. simpl.
  destruct (scanned_index k x y Hk) as [Hi _].
  unfold sample. rewrite Hf, Hi. unfold at_.
  destruct (Z.ltb_spec (Z.of_nat k) 0); [lia|]. rewrite Nat2Z.id. split; reflexivity. }
assert (D : forall k, dropOuts (scan k out []) = []).
{ apply (scanned_invariant (fun st => dropOuts st = [])); [reflexivity|].
  intros k x y Hk IH. rewrite (proj2 (S1 _ k x y Hk)). exact IH. }
split.
- rewrite stackField_output.
  apply (nth_ext _ _ 0 0); [rewrite scanned_length; lia|].
  intros k Hk. rewrite scanned_length in Hk.
  rewrite (scanned_sample k out []) by lia.
  destruct (nth_error the_pixels k) as [[x y]|] eqn:E;
    [|apply nth_error_None in E; lia].
  rewrite (scanned_step _ _ _ _ _ k x y) by exact E.
  apply (S1 _ k x y E).
- rewrite stackField_scanned. cbv zeta. rewrite D. simpl. apply D.
Qed.

(** *** The output dropouts *)

(** What one pixel adds to the output dropouts. *)
Definition flagged (p : Z * Z) : DropOuts.t :=
  match fst (pixel_values (fst p) (snd p)) with
  | [] => if colourBurstStart videoParameters <? fst p
          then [DropOuts.mkDropOut (fst p) (fst p) (snd p + 1)] else []
  | _ :: _ => []
  end.

Lemma stackPixel_dropOuts (st : Scan) (x y : Z) :
  dropOuts (stack_pixel st x y) = dropOuts st ++ flagged (x, y).
Proof.
rewrite stackPixel_values. unfold stackValues, flagged. cbn [fst snd].
destruct (fst (pixel_values x y)) as [|a [|b [|c rest]]]; cbn [length Nat.ltb Nat.leb Nat.eqb dropOuts];
  rewrite ?app_nil_r; try reflexivity.
destruct (colourBurstStart videoParameters <? x); [reflexivity | symmetry; apply app_nil_r].
Qed.

Lemma scanned_dropOuts (l : list (Z * Z)) : forall st,
  dropOuts (fold_left (fun st p => stack_pixel st (fst p) (snd p)) l st)
  = dropOuts st ++ flat_map flagged l.
Proof.
induction l as [|[x y] l IH]; intros st; simpl; [symmetry; apply app_nil_r|].
rewrite IH, stackPixel_dropOuts, <- app_assoc. reflexivity.
Qed.

Lemma flagged_isDropout (l : list (Z * Z)) (x y : Z) :
  isDropout (flat_map flagged l) x y = true
  <-> In (x, y) l /\ fst (pixel_values x y) = [] /\ colourBurstStart videoParameters < x.
Proof.
induction l as [|[px py] l IH]; simpl.
- split; [discriminate | intros [[] _]].
- rewrite isDropout_app, orb_true_iff, IH.
  assert (F : isDropout (flagged (px, py)) x y = true
              <-> (px, py) = (x, y) /\ fst (pixel_values x y) = []
                  /\ colourBurstStart videoParameters < x).
  { unfold flagged. cbn [fst snd].
    destruct (fst (pixel_values px py)) as [|a rest] eqn:E.
    - destruct (Z.ltb_spec (colourBurstStart videoParameters) px) as [L|L]; simpl.
      + destruct (Z.eqb_spec (py + 1 - 1) y) as [Hy|Hy];
          destruct (Z.leb_spec px x) as [H1|H1];
          destruct (Z.leb_spec x px) as [H2|H2]; simpl; split; intros K;
          try discriminate;
          try (destruct K as (K & _ & _); inversion K; subst; first [reflexivity | lia]).
        assert (Ex : px = x) by lia. assert (Ey : py = y) by lia. subst px py.
        repeat split; assumption.
      + split; [discriminate | intros (K & _ & C); inversion K; subst; lia].
    - simpl. split; [discriminate | intros (K & V & _); inversion K; subst; congruence]. }
  rewrite F. tauto.
Qed.

(** X8.  As long as [DropOuts::concatenate] keeps the coverage of the
    table it merges, the dropouts [stackField] leaves (started from an
    empty table) mark exactly the pixels of the field whose value set is
    empty and whose column is past the colour-burst start. *)
Theorem output_dropouts_exact (out : list Z) (x y : Z) :
  (forall d px py, isDropout (concatenate d) px py = isDropout d px py) ->
  isDropout (dropOuts (stackField concatenate inputFields videoParameters fieldMetadata
                                  availableSourcesForFrame noDiffDod out [])) x y = true
  <-> 0 <= x < fieldWidth videoParameters
      /\ 0 <= y < fieldHeight videoParameters
      /\ fst (pixel_values x y) = []
      /\ colourBurstStart videoParameters < x.
Proof.
intros Hc.
assert (E : isDropout (dropOuts (stackField concatenate inputFields videoParameters
                                   fieldMetadata availableSourcesForFrame noDiffDod out []))
                      x y
            = isDropout (flat_map flagged the_pixels) x y).
{ rewrite stackField_scanned. cbv zeta. unfold scanned.
  rewrite firstn_all.
  destruct (DropOuts.size _ =? 0); cbn [dropOuts]; rewrite ?Hc, scanned_dropOuts;
    reflexivity. }
rewrite E, flagged_isDropout, pixels_In. tauto.
Qed.

(** *** No value: the previous good value and the dropout *)

(** The previous good value in force when the scan reaches its [k]-th
    pixel, read off the finished output field: the sample of the nearest
    earlier pixel whose value set was not empty, and 0, the value at the
    start of the field, when there is none. *)
Fixpoint remembered (field : list Z) (k : nat) : Z :=
  match k with
  | O => 0
  | S j =>
      match fst (pixel_values (fst (nth j the_pixels (0, 0))) (snd (nth j the_pixels (0, 0)))) with
      | [] => remembered field j
      | _ :: _ => nth j field 0
      end
  end.

Lemma scanned_remembered (out : list Z) (dos : DropOuts.t) (n : nat) :
  (length the_pixels <= length out)%nat ->
  forall k, (k <= length the_pixels)%nat -> (k <= n)%nat ->
  prevGoodValue (scan k out dos) = remembered (outputField (scan n out dos)) k.
Proof.
intros Hout. induction k as [|j IH]; intros Hk Hn; [reflexivity|].
destruct (nth_error the_pixels j) as [[x y]|] eqn:E;
  [|apply nth_error_None in E; lia].
rewrite (scanned_step _ _ _ _ _ j x y) by exact E.
cbn [remembered]. rewrite (nth_error_nth _ _ _ E). cbn [fst snd].
destruct (fst (pixel_values x y)) as [|v rest] eqn:V.
- rewrite <- IH by lia. rewrite stackPixel_values, V. reflexivity.
- rewrite (scanned_sample j out dos) by lia.
  rewrite (scanned_step _ _ _ _ _ j x y) by exact E. reflexivity.
Qed.

Lemma flagged_filter (l : list (Z * Z)) :
  flat_map flagged l
  = map (fun p => DropOuts.mkDropOut (fst p) (fst p) (snd p + 1))
        (filter (fun p => (length (fst (pixel_values (fst p) (snd p))) =? 0)%nat
                          && (colourBurstStart videoParameters <? fst p)) l).
Proof.
induction l as [|p l IH]; [reflexivity|]. cbn [flat_map filter]. rewrite IH.
unfold flagged. destruct (fst (pixel_values (fst p) (snd p))); cbn [length Nat.eqb andb];
  [|reflexivity].
destruct (colourBurstStart videoParameters <? fst p); reflexivity.
Qed.

(** C5.  In the field and the dropouts [stackField] leaves (for an
    output field that holds the pixels of the field): the sample of every
    pixel whose value set, after the rescue if any, is empty is the
    previous good value of that field scan, that is the sample of the
    nearest earlier pixel with a value, and 0 at the start of each field;
    and the dropouts handed to [concatenate] are those the caller passed,
    followed by one interval [(x, x, y + 1)] for every pixel with an empty
    value set whose column is past the colour-burst start, in scan order,
    and by none for a column at or before it. *)
Theorem empty_set_fallback (out : list Z) (dos : DropOuts.t) :
  (length the_pixels <= length out)%nat ->
  let field := stackField concatenate inputFields videoParameters fieldMetadata
                          availableSourcesForFrame noDiffDod out dos in
  let appended :=
    dos ++ map (fun p => DropOuts.mkDropOut (fst p) (fst p) (snd p + 1))
               (filter (fun p => (length (fst (pixel_values (fst p) (snd p))) =? 0)%nat
                                 && (colourBurstStart videoParameters <? fst p))
                       the_pixels) in
  (forall k x y,
     nth_error the_pixels k = Some (x, y) ->
     fst (pixel_values x y) = [] ->
     nth k (outputField field) 0 = remembered (outputField field) k
     /\ at_ 0 (outputField field) (pixel_index x y) = remembered (outputField field) k)
  /\ dropOuts field
     = (if DropOuts.size appended =? 0 then appended else concatenate appended).
Proof.
intros Hout field appended. split.
- intros k x y Hk Hv. unfold field. rewrite stackField_output.
  destruct (scanned_index k x y Hk) as [Hi Hlt].
  assert (E : nth k (outputField (scan (length the_pixels) out dos)) 0
              = remembered (outputField (scan (length the_pixels) out dos)) k).
  { rewrite (scanned_sample k out dos) by lia.
    rewrite (scanned_step _ _ _ _ _ k x y) by exact Hk.
    rewrite <- (scanned_remembered out dos (length the_pixels)) by lia.
    rewrite stackPixel_values, Hv. reflexivity. }
  split; [exact E|].
  rewrite Hi. unfold at_. destruct (Z.ltb_spec (Z.of_nat k) 0); [lia|].
  rewrite Nat2Z.id. exact E.
- assert (ED : dropOuts (scan (length the_pixels) out dos) = appended).
  { unfold scanned. rewrite firstn_all, scanned_dropOuts, flagged_filter. reflexivity. }
  unfold field. rewrite stackField_scanned. cbv zeta. rewrite !ED.
  destruct (DropOuts.size appended =? 0); [exact ED | reflexivity].
Qed.

End Field.

(** *** The rescue at the ends of the sample range *)

Lemma diffDod_values (inputValues : list Z) (vp : VideoParameters) (xPos : Z) :
  Forall quint16 inputValues ->
  (3 <= length inputValues)%nat -> colourBurstStart vp <= xPos ->
  fst (diffDod inputValues vp xPos)
  = filter (fun v => (9 * median inputValues / 10 <? v)
                     && (v <? Z.min 65535 (11 * median inputValues / 10))) inputValues.
Proof.
intros Hr Hn Hx. unfold diffDod.
destruct (Nat.ltb_spec (length inputValues) 3); [lia|].
destruct (Z.ltb_spec xPos (colourBurstStart vp)); [lia|].
assert (Hm : 0 <= median inputValues < 2 ^ 16).
{ apply median_quint16; [|exact Hr]. destruct inputValues; simpl in *; [lia | discriminate]. }
destruct (DoubleFacts.band (median inputValues) Hm) as [Hmin Hmax].
unfold DoubleFacts.bandMinD, DoubleFacts.bandMaxD in Hmin, Hmax.
cbv zeta in Hmin, Hmax. cbv zeta. cbn [fst].
rewrite Hmin, Hmax. reflexivity.
Qed.

(** X9.  [diffDod] only ever returns values it was given, and none of
    them is 0.  For an odd number of values, whose median [m] is the
    middle order statistic and one of the values: the band is empty at the
    dark end, so that nothing is rescued when [m] is below 10, not even
    [m]; and [m] itself is rescued exactly when it lies between 10 and
    65534, so a median of 65535 is not rescued either. *)
Theorem diffDod_range_ends (inputValues : list Z) (vp : VideoParameters) (xPos : Z) :
  Forall quint16 inputValues ->
  (3 <= length inputValues)%nat ->
  colourBurstStart vp <= xPos ->
  let m := order_stat (length inputValues / 2) inputValues in
  let rescued := fst (diffDod inputValues vp xPos) in
  (forall v, In v rescued -> In v inputValues /\ 0 < v)
  /\ ((length inputValues mod 2 = 1)%nat ->
      In m inputValues
      /\ (m < 10 -> rescued = [])
      /\ (In m rescued <-> 10 <= m < 65535)).
Proof.
intros Hr Hn Hx m rescued.
assert (Hc : quint16 (median inputValues)).
{ apply median_quint16; [|exact Hr]. destruct inputValues; simpl in *; [lia | discriminate]. }
unfold quint16 in Hc.
assert (E : rescued = filter (fun v => (9 * median inputValues / 10 <? v)
                                       && (v <? Z.min 65535 (11 * median inputValues / 10)))
                             inputValues) by (apply diffDod_values; assumption).
split.
- intros v Hv. rewrite E in Hv. apply filter_In in Hv as [Hin Hb].
  apply andb_true_iff in Hb as [A _]. apply Z.ltb_lt in A.
  split; [exact Hin | Z.div_mod_to_equations; lia].
- intros Hodd.
  assert (Em : median inputValues = m) by (apply median_odd; exact Hodd).
  rewrite Em in E, Hc.
  assert (Hin : In m inputValues) by (apply order_stat_In, Nat.div_lt; lia).
  split; [exact Hin|]. split.
  + intros Hd. rewrite E.
    assert (F : forall l, filter (fun v => (9 * m / 10 <? v)
                                           && (v <? Z.min 65535 (11 * m / 10))) l = []).
    { induction l as [|v l IH]; cbn [filter]; [reflexivity|].
      destruct (Z.ltb_spec (9 * m / 10) v);
        destruct (Z.ltb_spec v (Z.min 65535 (11 * m / 10)));
        cbn [andb]; try exact IH. Z.div_mod_to_equations; lia. }
    apply F.
  + rewrite E, filter_In, andb_true_iff, !Z.ltb_lt.
    split; [intros (_ & A & B) | intros B; split; [exact Hin|]];
      Z.div_mod_to_equations; lia.
Qed.

End Engine.

End StackerCoverage.

Module StackerCoverageExamples.

Import LdDecodeMetaData Stacker OrderFacts StackerFacts StackerExamples StackerCoverage.

Lemma median_odd_stable_witness :
  median (selection := sorting) [30; 10; 20] = median (selection := reversing) [10; 20; 30].
Proof.
apply (median_odd_stable (selection := sorting) reversing [30; 10; 20] [10; 20; 30]);
  [reflexivity|].
eapply perm_trans; [apply perm_swap | apply perm_skip, perm_swap].
Defined.

Lemma fused_between_witness :
  prevGoodValue
    (stackPixel (selection := sorting) [[70]; [70]; [70]] (geometry 1) (clean 3)
                [0; 1; 2] false (start [0] []) 0 0) = 70.
Proof.
destruct (fused_between (selection := sorting) [[70]; [70]; [70]] (geometry 1) (clean 3)
            [0; 1; 2] false 70 70 (start [0] []) 0 0 [70; 70; 70]) as (_ & _ & H);
  [reflexivity | discriminate | repeat constructor; unfold quint16; lia
  | repeat constructor; lia |].
apply H. reflexivity.
Defined.

Lemma stackField_quint16_witness :
  Forall quint16
    (outputField (stackField (selection := sorting) (fun d => d)
                    [[10]; [20]; [30]; [40]] (geometry 1) (clean 4) [0; 1; 2; 3] false
                    [0] [])).
Proof.
apply (stackField_quint16 (selection := sorting));
  repeat constructor; unfold quint16; lia.
Defined.

(** A source of two pixels whose second pixel is marked as a dropout. *)
Definition secondMarked : list Field := [mkField [DropOuts.mkDropOut 1 1 1]].

Lemma empty_pixel_repeats_witness :
  nth 1 (outputField (stackField (selection := sorting) (fun d => d) [[5; 9]] (geometry 2)
                        secondMarked [0] false [0; 0] [])) 0
  = nth 0 (outputField (stackField (selection := sorting) (fun d => d) [[5; 9]] (geometry 2)
                          secondMarked [0] false [0; 0] [])) 0.
Proof.
apply (empty_pixel_repeats (selection := sorting) (fun d => d) [[5; 9]] (geometry 2)
         secondMarked [0] false 1 1 0 [0; 0] []);
  [reflexivity | simpl; lia | reflexivity].
Defined.

Lemma single_source_copied_witness :
  outputField (stackField (selection := sorting) (fun d => d) [[5; 9]] (geometry 2)
                 (clean 1) [0] false [0; 0] []) = [5; 9].
Proof.
destruct (single_source_copied (selection := sorting) (fun d => d) [[5; 9]] (geometry 2)
            (clean 1) [0] false 0 [5; 9] [0; 0]) as [H _];
  [reflexivity | reflexivity | intros; reflexivity | reflexivity | reflexivity |].
exact H.
Defined.

Lemma output_dropouts_exact_witness :
  isDropout (dropOuts (stackField (selection := sorting) (fun d => d) [[5; 9]] (geometry 2)
                         secondMarked [0] false [0; 0] [])) 1 0 = true.
Proof.
destruct (output_dropouts_exact (selection := sorting) (fun d => d) [[5; 9]] (geometry 2)
            secondMarked [0] false [0; 0] 1 0) as [_ H]; [intros; reflexivity|].
apply H. repeat split; simpl; lia.
Defined.

Lemma diffDod_range_ends_witness :
  fst (diffDod (selection := sorting) [5; 5; 5] (geometry 1) 0) = []
  /\ In 55 (fst (diffDod (selection := reversing) [55; 55; 60] (geometry 1) 0)).
Proof.
split.
- destruct (diffDod_range_ends (selection := sorting) [5; 5; 5] (geometry 1) 0)
    as (_ & H);
    [repeat constructor; unfold quint16; lia | simpl; lia | simpl; lia |].
  destruct (H eq_refl) as (_ & H' & _). apply H'. vm_compute. reflexivity.
- destruct (diffDod_range_ends (selection := reversing) [55; 55; 60] (geometry 1) 0)
    as (_ & H);
    [repeat constructor; unfold quint16; lia | simpl; lia | simpl; lia |].
  destruct (H eq_refl) as (_ & _ & H'). apply H'.
  vm_compute; split; [discriminate | reflexivity].
Defined.

(** A line of three pixels seen by one source whose last two pixels are
    marked as dropouts, the colour burst starting at column 1: the two
    marked pixels repeat the sample 5 of the first one, and only the one
    past the colour-burst start is recorded. *)
Lemma empty_set_fallback_witness :
  nth 2 (outputField (stackField (selection := sorting) (fun d => d) [[5; 9; 7]]
                        (mkVideoParameters true 1 0 3 3 1)
                        [mkField [DropOuts.mkDropOut 1 2 1]] [0] false [0; 0; 0] [])) 0 = 5
  /\ dropOuts (stackField (selection := sorting) (fun d => d) [[5; 9; 7]]
                 (mkVideoParameters true 1 0 3 3 1)
                 [mkField [DropOuts.mkDropOut 1 2 1]] [0] false [0; 0; 0] [])
     = [DropOuts.mkDropOut 2 2 1].
Proof.
destruct (empty_set_fallback (selection := sorting) (fun d => d) [[5; 9; 7]]
            (mkVideoParameters true 1 0 3 3 1)
            [mkField [DropOuts.mkDropOut 1 2 1]] [0] false [0; 0; 0] []) as [H1 H2];
  [simpl; lia|].
split.
- rewrite (proj1 (H1 2%nat 2 0 eq_refl eq_refl)). reflexivity.
- rewrite H2. reflexivity.
Defined.

End StackerCoverageExamples.

(** ** The worker loops, continued *)

Module WorkerCoverage.

Import Pool.

(** The frames before the first one whose result the sink refuses. *)
Fixpoint before_fault {Input : Type} (faulty : Z -> bool) (frames : list (Z * Input))
    : list (Z * Input) :=
  match frames with
  | [] => []
  | (n, f) :: rest => if faulty n then [] else (n, f) :: before_fault faulty rest
  end.

(** The frames after the first one whose result the sink refuses. *)
Fixpoint after_fault {Input : Type} (faulty : Z -> bool) (frames : list (Z * Input))
    : list (Z * Input) :=
  match frames with
  | [] => []
  | (n, _) :: rest => if faulty n then rest else after_fault faulty rest
  end.

Lemma getInputFrame_collected {Input Output : Type} (p p' : Pool.t Input Output)
    (f : option (Z * Input)) :
  getInputFrame p = (f, p') -> collected p' = collected p.
Proof.
unfold getInputFrame. destruct (pending p); intros H; inversion H; reflexivity.
Qed.

Lemma putOutputFrame_collected {Input Output : Type} (p : Pool.t Input Output) (n : Z)
    (out : Output) :
  collected (snd (putOutputFrame p n out))
  = if faulty p n then collected p else collected p ++ [(n, out)].
Proof. unfold putOutputFrame. destruct (faulty p n); reflexivity. Qed.

Lemma getInputFrame_exhausted {Input Output : Type} (p p' : Pool.t Input Output) :
  getInputFrame p = (None, p') -> p' = p /\ pending p = [].
Proof.
unfold getInputFrame. destruct (pending p); intros H; inversion H. split; reflexivity.
Qed.

Lemma pool_eta {Input Output : Type} (p : Pool.t Input Output) :
  p = Pool.mk (pending p) (collected p) (faulty p).
Proof. destruct p; reflexivity. Qed.

Lemma pool_eq {Input Output : Type} (p : Pool.t Input Output) pend coll flt :
  pending p = pend -> collected p = coll -> faulty p = flt -> p = Pool.mk pend coll flt.
Proof. destruct p; simpl; intros; subst; reflexivity. Qed.

Section Stacker.
Context {selection : NthElement}.
Variable concatenate : DropOuts.t -> DropOuts.t.

Lemma stacker_run_result (p : Pool.t Stacker.InputFrame Stacker.OutputFrame)
    (abort : bool) (tr : list Event) :
  (abort = false ->
   Stacker.run concatenate p abort tr
   = mkStopped false
       (Pool.mk [] (collected p
                    ++ map (fun nf => (fst nf, Stacker.stackFrame concatenate (snd nf)))
                           (filter (fun nf => negb (faulty p (fst nf))) (pending p)))
                (faulty p))
       (trace (Stacker.run concatenate p abort tr)))
  /\ (abort = true -> Stacker.run concatenate p abort tr = mkStopped true p tr).
Proof.
funelim (Stacker.run concatenate p abort tr); (split; intros Hab; try discriminate).
- reflexivity.
- match goal with H : _ /\ _ |- _ => destruct H as [IHrun _] end.
  specialize (IHrun eq_refl). rewrite IHrun at 1.
  match goal with E : getInputFrame _ = _ |- _ =>
    rewrite putOutputFrame_collected, WorkerFacts.putOutputFrame_faulty,
            putOutputFrame_pending,
            (getInputFrame_pending _ _ _ _ _ E),
            (getInputFrame_collected _ _ _ E),
            (WorkerFacts.getInputFrame_faulty _ _ _ E) end.
  cbn [filter fst snd map].
  destruct (faulty p frameNumber); cbn [negb map]; [reflexivity|].
  rewrite <- app_assoc. reflexivity.
- match goal with E : getInputFrame _ = _ |- _ =>
    destruct (getInputFrame_exhausted _ _ E) as [-> N] end.
  rewrite N. simpl. rewrite app_nil_r. f_equal.
  rewrite <- N. apply pool_eta.
Qed.

(** X10.  [Stacker::run] started with the flag clear never sets it and
    leaves no frame pending: the result of every frame the sink accepts is
    collected once, under its frame number and in the order of the frames,
    and the result of a frame the sink refuses is dropped without a trace
    in the pool.  Started with the flag set, it touches nothing. *)
Theorem stacker_run_pool (p : Pool.t Stacker.InputFrame Stacker.OutputFrame)
    (tr : list Event) :
  Pool.abort (Stacker.run concatenate p false tr) = false
  /\ pool (Stacker.run concatenate p false tr)
     = Pool.mk [] (collected p
                   ++ map (fun nf => (fst nf, Stacker.stackFrame concatenate (snd nf)))
                          (filter (fun nf => negb (faulty p (fst nf))) (pending p)))
               (faulty p)
  /\ Stacker.run concatenate p true tr = mkStopped true p tr.
Proof.
destruct (stacker_run_result p false tr) as [H _].
destruct (stacker_run_result p true tr) as [_ H'].
rewrite (H eq_refl). cbn [Pool.abort pool]. repeat split; auto.
Qed.

End Stacker.

Section PalThread.
Variable performDecode : list byte -> list byte -> Z -> Z -> bool -> list byte.
Variable config : PalDecoder.Configuration.

Lemma pal_run_result (p : Pool.t PalDecoder.InputFrame (list byte))
    (abort : bool) (tr : list Event) :
  (abort = false ->
   PalDecoder.run performDecode config p abort tr
   = mkStopped
       (existsb (fun nf => faulty p (fst nf)) (pending p))
       (Pool.mk (after_fault (faulty p) (pending p))
                (collected p
                 ++ map (fun nf => (fst nf,
                                    PalDecoder.decodeFrame performDecode config (snd nf)))
                        (before_fault (faulty p) (pending p)))
                (faulty p))
       (trace (PalDecoder.run performDecode config p abort tr)))
  /\ (abort = true -> PalDecoder.run performDecode config p abort tr = mkStopped true p tr).
Proof.
funelim (PalDecoder.run performDecode config p abort tr);
  (split; intros Hab; try discriminate).
- reflexivity.
- (* no frame left *)
  match goal with E : getInputFrame _ = _ |- _ =>
    destruct (getInputFrame_exhausted _ _ E) as [-> N] end.
  rewrite N. simpl. rewrite app_nil_r. f_equal.
  rewrite <- N. apply pool_eta.
- (* the result was collected *)
  match goal with H : _ /\ _ |- _ => destruct H as [IHrun _] end.
  specialize (IHrun eq_refl). rewrite IHrun at 1.
  match goal with
  | E : getInputFrame _ = _, G : putOutputFrame _ _ _ = _ |- _ =>
      pose proof (WorkerFacts.putOutputFrame_fst p' frameNumber
                    (PalDecoder.decodeFrame performDecode config f)) as K;
      pose proof (WorkerFacts.putOutputFrame_faulty p' frameNumber
                    (PalDecoder.decodeFrame performDecode config f)) as Kf;
      pose proof (putOutputFrame_pending _ _ p' frameNumber
                    (PalDecoder.decodeFrame performDecode config f)) as Kp;
      pose proof (putOutputFrame_collected p' frameNumber
                    (PalDecoder.decodeFrame performDecode config f)) as Kc;
      rewrite G in K, Kf, Kp, Kc; cbn [fst snd] in K, Kf, Kp, Kc;
      rewrite Kf, Kp, Kc;
      rewrite (getInputFrame_pending _ _ _ _ _ E);
      rewrite (getInputFrame_collected _ _ _ E) in *;
      rewrite (WorkerFacts.getInputFrame_faulty _ _ _ E) in *
  end.
  cbn [existsb before_fault after_fault fst snd map].
  destruct (faulty p frameNumber); [discriminate|].
  cbn [orb map]. rewrite <- app_assoc. reflexivity.
- (* the result was refused *)
  match goal with
  | E : getInputFrame _ = _, G : putOutputFrame _ _ _ = _ |- _ =>
      pose proof (WorkerFacts.putOutputFrame_fst p' frameNumber
                    (PalDecoder.decodeFrame performDecode config f)) as K;
      pose proof (WorkerFacts.putOutputFrame_faulty p' frameNumber
                    (PalDecoder.decodeFrame performDecode config f)) as Kf;
      pose proof (putOutputFrame_pending _ _ p' frameNumber
                    (PalDecoder.decodeFrame performDecode config f)) as Kp;
      pose proof (putOutputFrame_collected p' frameNumber
                    (PalDecoder.decodeFrame performDecode config f)) as Kc;
      rewrite G in K, Kf, Kp, Kc; cbn [fst snd] in K, Kf, Kp, Kc;
      rewrite (getInputFrame_pending _ _ _ _ _ E);
      rewrite (getInputFrame_collected _ _ _ E) in *;
      rewrite (WorkerFacts.getInputFrame_faulty _ _ _ E) in *
  end.
  cbn [existsb before_fault after_fault fst snd map].
  destruct (faulty p frameNumber); [|discriminate].
  cbn [orb map]. rewrite app_nil_r. f_equal.
  apply pool_eq; assumption.
Qed.

(** X11.  [PalThread::run] started with the flag clear collects, in
    order, the decoded frames that come before the first refused result
    and nothing else; the frames after the refused one stay in the pool
    unclaimed; the flag is set exactly when some result was refused.
    Started with the flag set, it touches nothing. *)
Theorem pal_run_pool (p : Pool.t PalDecoder.InputFrame (list byte)) (tr : list Event) :
  Pool.abort (PalDecoder.run performDecode config p false tr)
  = existsb (fun nf => faulty p (fst nf)) (pending p)
  /\ pool (PalDecoder.run performDecode config p false tr)
     = Pool.mk (after_fault (faulty p) (pending p))
               (collected p
                ++ map (fun nf => (fst nf,
                                   PalDecoder.decodeFrame performDecode config (snd nf)))
                       (before_fault (faulty p) (pending p)))
               (faulty p)
  /\ PalDecoder.run performDecode config p true tr = mkStopped true p tr.
Proof.
destruct (pal_run_result p false tr) as [H _].
destruct (pal_run_result p true tr) as [_ H'].
rewrite (H eq_refl). cbn [Pool.abort pool]. repeat split; auto.
Qed.

End PalThread.

End WorkerCoverage.

(** ** The configured geometry and the size of the output frame *)

Module PalDecoderCoverage.

Import LdDecodeMetaData PalDecoder PalDecoderFacts.

(** *** The widened band ([PalDecoder::configure]) *)

Lemma missing_parity (w : Z) : missing w mod 2 = w mod 2.
Proof.
unfold missing.
pose proof (Z.mod_pos_bound (- w) 16 ltac:(lia)).
pose proof (Z.mod_pos_bound w 2 ltac:(lia)).
pose proof (Z.mod_pos_bound ((- w) mod 16) 2 ltac:(lia)).
pose proof (Z.div_mod (- w) 16 ltac:(lia)).
pose proof (Z.div_mod w 2 ltac:(lia)).
pose proof (Z.div_mod ((- w) mod 16) 2 ltac:(lia)).
lia.
Qed.

Lemma rem_2_mod (w : Z) : Z.rem w 2 = 0 <-> w mod 2 = 0.
Proof. apply Z.rem_mod_eq_0. lia. Qed.

(** The band the loop leaves, in closed form: of the [n] pixels missing,
    [n / 2] go to the right and the others to the left. *)
Lemma widen_edges (vp : VideoParameters) :
  widen vp
  = mkVideoParameters (isSourcePal vp) (colourBurstStart vp)
      (activeVideoStart vp
       - (missing (activeWidth vp) - missing (activeWidth vp) / 2))
      (activeVideoEnd vp + missing (activeWidth vp) / 2)
      (fieldWidth vp) (fieldHeight vp).
Proof.
funelim (widen vp);
  change (activeVideoEnd vp - activeVideoStart vp) with (activeWidth vp) in *.
- rewrite missing_zero by assumption. change (0 / 2) with 0.
  destruct vp;
    cbn [isSourcePal colourBurstStart fieldWidth fieldHeight activeVideoStart activeVideoEnd].
  f_equal; lia.
- match goal with IH : widen _ = mkVideoParameters _ _ _ _ _ _ |- _ => rewrite IH end.
  assert (N : Z.rem (activeWidth vp) 16 <> 0) by assumption.
  rewrite widenStep_width, (missing_step _ N).
  pose proof (missing_bound (activeWidth vp + 1)) as B.
  pose proof (missing_parity (activeWidth vp + 1)) as P.
  pose proof (rem_2_mod (activeWidth vp)) as R.
  unfold widenStep. fold (activeWidth vp).
  clear - B P R.
  remember (missing (activeWidth vp + 1)) as m eqn:Em. clear Em.
  remember (activeWidth vp) as w eqn:Ew. clear Ew.
  pose proof (Z.mod_pos_bound w 2 ltac:(lia)) as B2.
  pose proof (Z.div_mod w 2 ltac:(lia)) as D2.
  pose proof (Z.mod_pos_bound (w + 1) 2 ltac:(lia)) as B3.
  pose proof (Z.div_mod (w + 1) 2 ltac:(lia)) as D3.
  pose proof (Z.mod_pos_bound m 2 ltac:(lia)) as B4.
  pose proof (Z.div_mod m 2 ltac:(lia)) as D4.
  pose proof (Z.mod_pos_bound (m + 1) 2 ltac:(lia)) as B5.
  pose proof (Z.div_mod (m + 1) 2 ltac:(lia)) as D5.
  destruct (Z.eqb_spec (Z.rem w 2) 0) as [E|E];
    cbn [isSourcePal colourBurstStart fieldWidth fieldHeight activeVideoStart
         activeVideoEnd set_activeVideoEnd set_activeVideoStart];
    f_equal; lia.
Qed.

(** X12.  The loop of [configure] that widens the active band keeps the
    band centred: every geometry comes out with the same fields but the
    two edges, the band only grows, the right edge moves by half of the
    missing pixels rounded down and the left edge by the other half, so
    that both edges move by the same amount when the width is even and
    the left edge by one pixel more when it is odd. *)
Theorem widen_centred (vp : VideoParameters) :
  let vp' := widen vp in
  let left := activeVideoStart vp - activeVideoStart vp' in
  let right := activeVideoEnd vp' - activeVideoEnd vp in
  isSourcePal vp' = isSourcePal vp
  /\ colourBurstStart vp' = colourBurstStart vp
  /\ fieldWidth vp' = fieldWidth vp
  /\ fieldHeight vp' = fieldHeight vp
  /\ 0 <= right <= left
  /\ left + right = missing (activeWidth vp)
  /\ left - right = activeWidth vp mod 2.
Proof.
intros vp' left right. subst left right vp'. rewrite widen_edges.
cbn [isSourcePal colourBurstStart fieldWidth fieldHeight activeVideoStart activeVideoEnd].
pose proof (missing_bound (activeWidth vp)) as B.
pose proof (missing_parity (activeWidth vp)) as P.
pose proof (Z.mod_pos_bound (missing (activeWidth vp)) 2 ltac:(lia)) as B2.
pose proof (Z.div_mod (missing (activeWidth vp)) 2 ltac:(lia)) as D2.
repeat split; try reflexivity; lia.
Qed.

Lemma widen_width (vp : VideoParameters) :
  activeWidth (widen vp) = activeWidth vp + missing (activeWidth vp).
Proof.
rewrite widen_edges. unfold activeWidth at 1.
cbn [activeVideoStart activeVideoEnd]. unfold activeWidth. lia.
Qed.

Lemma widen_multiple (vp : VideoParameters) : Z.rem (activeWidth (widen vp)) 16 = 0.
Proof. rewrite widen_width. apply missing_multiple. Qed.

Lemma widen_fixed (vp : VideoParameters) :
  Z.rem (activeWidth vp) 16 = 0 -> widen vp = vp.
Proof.
intros H. rewrite widen_edges, (missing_zero _ H). change (0 / 2) with 0.
destruct vp;
  cbn [isSourcePal colourBurstStart fieldWidth fieldHeight activeVideoStart activeVideoEnd].
f_equal; lia.
Qed.

Lemma widen_fields (vp : VideoParameters) :
  isSourcePal (widen vp) = isSourcePal vp /\ fieldWidth (widen vp) = fieldWidth vp
  /\ fieldHeight (widen vp) = fieldHeight vp.
Proof. rewrite widen_edges. repeat split. Qed.

(** *** The stored configuration ([PalDecoder::configure]) *)

(** X13.  [configure] answers with the PAL flag of the geometry it is
    given.  A geometry that is not PAL leaves the configuration as it was.
    For a PAL geometry, whatever its band, the configuration stored has a
    band whose width is a multiple of 16, the active lines 44 to 620 (the
    adjustment to an even count never applies), a frame of twice the field
    height less one line and the colour mode it had; and it is a fixed
    point: configuring again with the stored geometry answers true and
    stores the same configuration. *)
Theorem configure_normalises (config : Configuration) (vp : VideoParameters) :
  let c := snd (configure config vp) in
  fst (configure config vp) = isSourcePal vp
  /\ (if isSourcePal vp
      then Z.rem (activeWidth (videoParameters c)) 16 = 0
           /\ firstActiveScanLine c = 44
           /\ lastActiveScanLine c = 620
           /\ frameHeight c = fieldHeight vp * 2 - 1
           /\ blackAndWhite c = blackAndWhite config
           /\ configure c (videoParameters c) = (true, c)
      else c = config).
Proof.
unfold configure at 1 2. destruct (isSourcePal vp) eqn:Hp; cbn [negb fst snd].
- split; [reflexivity|].
  cbn [videoParameters firstActiveScanLine lastActiveScanLine frameHeight blackAndWhite].
  split; [apply widen_multiple|]. repeat (split; [reflexivity|]).
  unfold configure. destruct (widen_fields vp) as (-> & _ & ->). rewrite Hp.
  cbn [negb blackAndWhite]. rewrite (widen_fixed _ (widen_multiple vp)). reflexivity.
- split; reflexivity.
Qed.

(** *** The frame of a configured decoder ([PalDecoder::configure] and
    [PalThread::run]) *)

Lemma crop_lines (config : Configuration) (outputData : list byte) :
  crop config outputData
  = concat (repeat (repeat x00 (Z.to_nat (activeWidth (videoParameters config) * 6)))
                   (Z.to_nat (576 - (lastActiveScanLine config
                                     - firstActiveScanLine config))))
    ++ concat (map (fun y => mid outputData
                               (y * fieldWidth (videoParameters config) * 6
                                + activeVideoStart (videoParameters config) * 6)
                               (activeWidth (videoParameters config) * 6))
                   (range (firstActiveScanLine config) (lastActiveScanLine config))).
Proof.
unfold crop, activeWidth. rewrite !fold_left_append. simpl app.
rewrite map_constant, upto_length. reflexivity.
Qed.

Lemma concat_length_le {A : Type} (n : nat) (ls : list (list A)) :
  Forall (fun l => (length l <= n)%nat) ls -> (length (concat ls) <= length ls * n)%nat.
Proof.
induction 1 as [|l ls Hl _ IH]; simpl; [lia|]. rewrite length_app. lia.
Qed.

Lemma concat_length_eq {A : Type} (n : nat) (ls : list (list A)) :
  Forall (fun l => length l = n) ls -> length (concat ls) = (length ls * n)%nat.
Proof.
induction 1 as [|l ls Hl _ IH]; simpl; [lia|]. rewrite length_app. lia.
Qed.

(** [mid] never hands out more than the [len] bytes asked for. *)
Lemma mid_length_le (a : list byte) (pos len : Z) :
  0 <= len -> Z.of_nat (length (mid a pos len)) <= len.
Proof.
intros Hl. unfold mid.
destruct (Z.ltb_spec (Z.of_nat (length a)) pos); [simpl; lia|].
destruct (Z.ltb_spec pos 0).
- destruct (Z.ltb_spec len 0); [lia|]. cbn [orb].
  destruct (Z.leb_spec (Z.of_nat (length a)) (len + pos)); [lia|].
  destruct (Z.leb_spec (len + pos) 0); [simpl; lia|].
  rewrite length_firstn. lia.
- destruct (Z.ltb_spec len 0); [lia|]. cbn [orb].
  destruct (Z.ltb_spec (Z.of_nat (length a) - pos) len);
    rewrite length_firstn, length_skipn; lia.
Qed.

(** X14.  The frame a decoder configured with a PAL geometry writes has
    no blank line: when the widened band lies inside the field width and
    the decoded buffer holds [fieldWidth * frameHeight] pixels of 6 bytes
    with the line 620 inside, the output is the widened band of the scan
    lines 44 to 619 and nothing else, 576 lines whose width is a multiple
    of 16. *)
Theorem configured_frame_size (config : Configuration) (vp : VideoParameters)
    (outputData : list byte) :
  let c := snd (configure config vp) in
  let n := missing (activeWidth vp) in
  isSourcePal vp = true ->
  n - n / 2 <= activeVideoStart vp ->
  activeVideoStart vp <= activeVideoEnd vp ->
  activeVideoEnd vp + n / 2 <= fieldWidth vp ->
  311 <= fieldHeight vp ->
  Z.of_nat (length outputData) = fieldWidth vp * (fieldHeight vp * 2 - 1) * 6 ->
  crop c outputData
  = concat (map (fun y => slice outputData
                            (y * fieldWidth vp * 6
                             + (activeVideoStart vp - (n - n / 2)) * 6)
                            ((activeWidth vp + n) * 6))
                (range 44 620))
  /\ Z.of_nat (length (crop c outputData)) = 576 * ((activeWidth vp + n) * 6)
  /\ Z.rem (activeWidth vp + n) 16 = 0.
Proof.
intros c n Hp Hleft Hband Hright Hh Hsize.
pose proof (missing_bound (activeWidth vp)) as B. fold n in B.
assert (Hn : 0 <= n / 2 <= n) by (split; [apply Z.div_pos; lia | apply Z.div_le_upper_bound; lia]).
assert (Hw : 0 <= activeWidth vp) by (unfold activeWidth; lia).
assert (Ec : c = mkConfiguration (blackAndWhite config) (widen vp)
                   (fieldHeight vp * 2 - 1) 44 620).
{ unfold c, configure. rewrite Hp. reflexivity. }
assert (Emid : forall y, In y (range 44 620) ->
          mid outputData (y * fieldWidth vp * 6 + (activeVideoStart vp - (n - n / 2)) * 6)
                         ((activeWidth vp + n) * 6)
          = slice outputData
                  (y * fieldWidth vp * 6 + (activeVideoStart vp - (n - n / 2)) * 6)
                  ((activeWidth vp + n) * 6)
          /\ Z.of_nat (length (mid outputData
                                   (y * fieldWidth vp * 6
                                    + (activeVideoStart vp - (n - n / 2)) * 6)
                                   ((activeWidth vp + n) * 6)))
             = (activeWidth vp + n) * 6).
{ intros y Hy. apply range_In in Hy.
  assert (0 <= fieldWidth vp) by lia.
  apply mid_inside; [nia | lia |].
  rewrite Hsize. unfold activeWidth.
  assert ((y + 1) * fieldWidth vp <= (fieldHeight vp * 2 - 1) * fieldWidth vp) by nia.
  nia. }
assert (Ecrop : crop c outputData
                = concat (map (fun y => mid outputData
                                          (y * fieldWidth vp * 6
                                           + (activeVideoStart vp - (n - n / 2)) * 6)
                                          ((activeWidth vp + n) * 6))
                              (range 44 620))).
{ rewrite crop_lines, Ec.
  cbn [videoParameters firstActiveScanLine lastActiveScanLine].
  rewrite widen_width. destruct (widen_fields vp) as (_ & -> & _).
  rewrite widen_edges. cbn [activeVideoStart].
  change (Z.to_nat (576 - (620 - 44))) with 0%nat. reflexivity. }
split; [|split].
- rewrite Ecrop. f_equal. apply map_ext_in. intros y Hy. apply Emid, Hy.
- rewrite Ecrop.
  rewrite (concat_length_eq (Z.to_nat ((activeWidth vp + n) * 6))).
  + rewrite length_map, range_length. lia.
  + apply Forall_forall. intros l Hl. apply in_map_iff in Hl as (y & <- & Hy).
    destruct (Emid y Hy) as [_ L]. lia.
- apply missing_multiple.
Qed.

(** X15.  Whatever the decoded buffer holds, short or empty or too long,
    the frame [PalThread::run] writes for a band of non-negative width and
    at most 576 active lines is never larger than 576 lines of the active
    width, and never smaller than its blank lines. *)
Theorem crop_at_most (config : Configuration) (outputData : list byte) :
  let width := activeWidth (videoParameters config) in
  let band := lastActiveScanLine config - firstActiveScanLine config in
  0 <= width -> 0 <= band <= 576 ->
  (576 - band) * (width * 6) <= Z.of_nat (length (crop config outputData))
                             <= 576 * (width * 6).
Proof.
intros width band Hw Hb. rewrite crop_lines. fold width.
rewrite length_app.
rewrite (concat_length_eq (Z.to_nat (width * 6)))
  by (apply Forall_forall; intros l Hl; apply repeat_spec in Hl; subst l;
      apply repeat_length).
rewrite repeat_length.
match goal with |- context [length (concat ?ls)] =>
  assert (L : (length (concat ls) <= length ls * Z.to_nat (width * 6))%nat) end.
{ apply concat_length_le, Forall_forall. intros l Hl.
  apply in_map_iff in Hl as (y & <- & _).
  pose proof (mid_length_le outputData
                (y * fieldWidth (videoParameters config) * 6
                 + activeVideoStart (videoParameters config) * 6)
                (width * 6) ltac:(lia)).
  lia. }
rewrite length_map, range_length in L. fold band in L |- *.
nia.
Qed.

End PalDecoderCoverage.

Module PalDecoderCoverageExamples.

Import LdDecodeMetaData PalDecoder PalDecoderFacts.

(** A band of 12 pixels, columns 8 to 20, in fields of 32 by 311: it is
    widened by 2 pixels on each side, and the frame written is 576 lines
    of 16 pixels. *)
Lemma configured_frame_size_witness :
  Z.of_nat (length (crop (snd (configure
                                 (mkConfiguration false
                                    (mkVideoParameters false 0 0 0 0 0) 0 0 0)
                                 (mkVideoParameters true 98 8 20 32 311)))
                         (repeat x00 (Z.to_nat 119232))))
  = 55296
  /\ videoParameters (snd (configure
                             (mkConfiguration false
                                (mkVideoParameters false 0 0 0 0 0) 0 0 0)
                             (mkVideoParameters true 98 8 20 32 311)))
     = mkVideoParameters true 98 6 22 32 311.
Proof.
split; [|vm_compute; reflexivity].
refine (proj1 (proj2 (PalDecoderCoverage.configured_frame_size
          (mkConfiguration false (mkVideoParameters false 0 0 0 0 0) 0 0 0)
          (mkVideoParameters true 98 8 20 32 311)
          (repeat x00 (Z.to_nat 119232)) _ _ _ _ _ _)));
  try (vm_compute; reflexivity); vm_compute; intros K; discriminate K.
Defined.

(** An empty decoded buffer: the frame is the 574 blank lines alone. *)
Lemma crop_at_most_witness :
  (574 * 6 <= Z.of_nat (length (crop (mkConfiguration false
                                        (mkVideoParameters true 0 0 1 2 2) 3 1 3) []))
           <= 576 * 6)
  /\ length (crop (mkConfiguration false (mkVideoParameters true 0 0 1 2 2) 3 1 3) [])
     = 3444%nat.
Proof.
split; [|vm_compute; reflexivity].
refine (PalDecoderCoverage.crop_at_most
          (mkConfiguration false (mkVideoParameters true 0 0 1 2 2) 3 1 3) [] _ _);
  vm_compute; try split; intros K; discriminate K.
Defined.

End PalDecoderCoverageExamples.
